(** * The ib_insync execution bridge: IBKRService

    A shallow embedding of the class [IBKRService] of
    backend/services/ibkr_service.py as it is listed in
    docs/event-loop-integration.md: a dedicated worker thread owns the
    [ib_insync] connection, request handlers hand it closures through a
    [queue.Queue] and read the outcome from a [concurrent.futures.Future].

    The Python code is a state-and-exception program; it is written here in
    a small monad [Py] whose state is the whole system (the service object,
    the futures that exist, the worker threads and a log of the calls made
    to the outside).  Threads interleave at the blocking calls of the
    source: the scheduler's choices are the constructors of [Event].

    The [await] at the end of [execute] runs [future.result(30)] on a
    thread of the event loop's default executor; a [World] adds the awaits,
    the pool and a clock to the service.

    Durations are in milliseconds: [timeout=0.1] is [100], [ib.sleep(0.01)]
    is [10] and the two [30]-second waits are [30000]. *)

From stdpp Require Import base option list numbers strings gmap.

(** ** Python values, exceptions and outcomes *)

Inductive PyVal :=
| PyNone
| PyBool (b : bool)
| PyInt (z : Z)
| PyStr (s : string).

(** The exception classes that occur.  [KeyboardInterrupt] and [SystemExit]
    derive from [BaseException] only, so [except Exception] lets them
    through.  [StopIteration] is an [Exception]; asyncio refuses to set it
    on a future of the event loop. *)
Inductive PyExc :=
| TimeoutError
| InvalidStateError
| Empty
| ConnectionRefusedError
| ConnectionError (msg : string)
| RuntimeError (msg : string)
| ValueError (msg : string)
| StopIteration
| KeyboardInterrupt
| SystemExit.

Definition is_Exception (e : PyExc) : bool :=
  match e with
  | KeyboardInterrupt | SystemExit => false
  | _ => true
  end.

Definition is_Empty (e : PyExc) : bool :=
  match e with
  | Empty => true
  | _ => false
  end.

Definition is_StopIteration (e : PyExc) : bool :=
  match e with
  | StopIteration => true
  | _ => false
  end.

(** What a call does: return a value or raise. *)
Inductive Result (A : Type) :=
| Ok (a : A)
| Exc (e : PyExc).
Arguments Ok {A} a.
Arguments Exc {A} e.

(** ** The data of the service *)

(** State of a [concurrent.futures.Future]. *)
Inductive FutState :=
| Pending
| Fulfilled (v : PyVal)
| Rejected (e : PyExc).

(** Futures are named by the order of their creation. *)
Abbreviation FutId := nat (only parsing).

(** The connection object [IB()] of ib_insync is opaque: [IB] is its state,
    [ib_connect] and [ib_sleep] are the two methods the service calls
    ([ib.connect(host, port, clientId=client_id)] and [ib.sleep(seconds)],
    the latter with its argument in milliseconds).  Each takes the state of
    the connection and gives the new state and either a value or the
    exception it raised. *)
Class IBApi (IB : Type) := {
  ib_connect : string -> Z -> Z -> IB -> IB * Result PyVal;
  ib_sleep : N -> IB -> IB * Result PyVal;
}.

Section Bridge.

Context {IB : Type} `{api : !IBApi IB}.

(** A submitted callable, applied by the worker to [args] and [kwargs].
    The callables of the routers receive [service.ib], a reference to the
    shared connection: the call reads and updates the connection's state. *)
Definition Callable : Type :=
  list PyVal -> list (string * PyVal) -> IB -> IB * Result PyVal.

(** An entry of [_task_queue]: the tuple [(func, args, kwargs, future)]. *)
Record WorkItem := {
  wi_func : Callable;
  wi_args : list PyVal;
  wi_kwargs : list (string * PyVal);
  wi_future : FutId;
}.

(** The attributes set by [__init__]. *)
Record IBKRService := {
  ib : IB;
  _thread : option nat;
  _connected : bool;
  _running : bool;
  _task_queue : list WorkItem;
}.

(** Where a worker thread is in [_worker]. *)
Inductive WorkerPc :=
| Connecting               (* started, [ib.connect] has not returned *)
| Looping                  (* at the [while] test / blocked in [get] *)
| Executing (it : WorkItem)(* took [it] off the queue, [func] not yet run *)
| Exited                   (* left the loop because [_running] was false *)
| Crashed (e : PyExc).     (* an exception left [_worker] *)

(** A thread made by one call of [start], with the closure variables of
    that call: its arguments, [connect_done] and [connect_error]. *)
Record Worker := {
  w_host : string;
  w_port : Z;
  w_client_id : Z;
  connect_done : bool;
  connect_error : list PyExc;
  w_pc : WorkerPc;
}.

(** Calls to the outside, in the order they are made. *)
Inductive Obs :=
| ObsConnect (w : nat)
| ObsSet (w : nat)                 (* [connect_done.set()] *)
| ObsFunc (w : nat) (f : FutId)    (* the call of [func] of the item of [f] *)
| ObsSleep (w : nat) (ms : N).     (* [ib.sleep] *)

Record Sys := {
  svc : IBKRService;
  futures : list FutState;
  threads : list Worker;
  log : list Obs;
}.

Definition set_svc (f : IBKRService -> IBKRService) (s : Sys) : Sys :=
  {| svc := f (svc s); futures := futures s; threads := threads s; log := log s |}.

Definition set_futures (f : list FutState -> list FutState) (s : Sys) : Sys :=
  {| svc := svc s; futures := f (futures s); threads := threads s; log := log s |}.

Definition set_threads (f : list Worker -> list Worker) (s : Sys) : Sys :=
  {| svc := svc s; futures := futures s; threads := f (threads s); log := log s |}.

Definition add_log (o : Obs) (s : Sys) : Sys :=
  {| svc := svc s; futures := futures s; threads := threads s; log := log s ++ [o] |}.

Definition with_ib (i : IB) (v : IBKRService) : IBKRService :=
  {| ib := i; _thread := _thread v; _connected := _connected v;
     _running := _running v; _task_queue := _task_queue v |}.

Definition with_thread (t : option nat) (v : IBKRService) : IBKRService :=
  {| ib := ib v; _thread := t; _connected := _connected v;
     _running := _running v; _task_queue := _task_queue v |}.

Definition with_connected (b : bool) (v : IBKRService) : IBKRService :=
  {| ib := ib v; _thread := _thread v; _connected := b;
     _running := _running v; _task_queue := _task_queue v |}.

Definition with_running (b : bool) (v : IBKRService) : IBKRService :=
  {| ib := ib v; _thread := _thread v; _connected := _connected v;
     _running := b; _task_queue := _task_queue v |}.

Definition with_queue (q : list WorkItem) (v : IBKRService) : IBKRService :=
  {| ib := ib v; _thread := _thread v; _connected := _connected v;
     _running := _running v; _task_queue := q |}.

Definition with_pc (pc : WorkerPc) (k : Worker) : Worker :=
  {| w_host := w_host k; w_port := w_port k; w_client_id := w_client_id k;
     connect_done := connect_done k; connect_error := connect_error k; w_pc := pc |}.

Definition with_done (b : bool) (k : Worker) : Worker :=
  {| w_host := w_host k; w_port := w_port k; w_client_id := w_client_id k;
     connect_done := b; connect_error := connect_error k; w_pc := w_pc k |}.

Definition with_error (l : list PyExc) (k : Worker) : Worker :=
  {| w_host := w_host k; w_port := w_port k; w_client_id := w_client_id k;
     connect_done := connect_done k; connect_error := l; w_pc := w_pc k |}.

(** [IBKRService.__init__] and the system before any call. *)
Definition __init__ (i : IB) : IBKRService :=
  {| ib := i; _thread := None; _connected := false; _running := false;
     _task_queue := [] |}.

Definition init (i : IB) : Sys :=
  {| svc := __init__ i; futures := []; threads := []; log := [] |}.

(** ** The monad of Python code *)

Definition Py (A : Type) : Type := Sys -> Sys * Result A.

Definition ret {A} (a : A) : Py A := fun s => (s, Ok a).

Definition raise {A} (e : PyExc) : Py A := fun s => (s, Exc e).

Definition bind {A B} (m : Py A) (k : A -> Py B) : Py B :=
  fun s => match m s with
           | (s1, Ok a) => k a s1
           | (s1, Exc e) => (s1, Exc e)
           end.

(** [try: body except C as e: handler e], where [catches] says which
    exceptions are instances of [C].  The state reached when the exception
    was raised is kept, as mutation is in Python. *)
Definition try_except {A} (body : Py A) (catches : PyExc -> bool)
    (handler : PyExc -> Py A) : Py A :=
  fun s => match body s with
           | (s1, Ok a) => (s1, Ok a)
           | (s1, Exc e) => if catches e then handler e s1 else (s1, Exc e)
           end.

(** [try: body finally: fin]. *)
Definition try_finally {A} (body : Py A) (fin : Py unit) : Py A :=
  fun s => match body s with
           | (s1, r) => match fin s1 with
                        | (s2, Ok _) => (s2, r)
                        | (s2, Exc e) => (s2, Exc e)
                        end
           end.

Definition modify (f : Sys -> Sys) : Py unit := fun s => (f s, Ok tt).

Definition read {A} (f : Sys -> A) : Py A := fun s => (s, Ok (f s)).

Notation "'do' x <- m ; k" := (bind m (fun x => k))
  (at level 10, x name, m at level 100, k at level 200, only parsing).
Notation "m ;; k" := (bind m (fun _ => k))
  (at level 100, k at level 200, right associativity, only parsing).

(** A call that may block: [None] while it has not returned. *)
Definition Blocking (A : Type) : Type := Sys -> Sys * option (Result A).

(** ** The library objects the service uses *)

(** [queue.Queue.put] on the unbounded queue. *)
Definition Queue_put (it : WorkItem) : Py unit :=
  modify (set_svc (fun v => with_queue (_task_queue v ++ [it]) v)).

(** [queue.Queue.get(timeout=t)]: the oldest entry, or [queue.Empty] when
    none came for the whole of [t]. *)
Definition Queue_get (timeout : N) : Py WorkItem :=
  fun s => match _task_queue (svc s) with
           | [] => (s, Exc Empty)
           | it :: q => (set_svc (with_queue q) s, Ok it)
           end.

(** [Future()]: a new pending future. *)
Definition Future_new : Py FutId :=
  fun s => (set_futures (fun l => l ++ [Pending]) s, Ok (length (futures s))).

(** [Future.set_result] and [Future.set_exception]: only a pending future
    is settled, any other raises [InvalidStateError]. *)
Definition Future_set_result (f : FutId) (v : PyVal) : Py unit :=
  fun s => match futures s !! f with
           | Some Pending => (set_futures (fun l => <[f := Fulfilled v]> l) s, Ok tt)
           | _ => (s, Exc InvalidStateError)
           end.

Definition Future_set_exception (f : FutId) (e : PyExc) : Py unit :=
  fun s => match futures s !! f with
           | Some Pending => (set_futures (fun l => <[f := Rejected e]> l) s, Ok tt)
           | _ => (s, Exc InvalidStateError)
           end.

(** [Future.result(timeout)] for a thread that entered the call at [since]
    and is still inside it at [clock]: the call returns the value or raises
    the exception as soon as the future is settled, raises [TimeoutError]
    when [timeout] has passed since it was entered, and stays blocked
    ([None]) till then.  The future is only read. *)
Definition Future_result (f : FutId) (timeout since clock : N) (s : Sys)
    : option (Result PyVal) :=
  match futures s !! f with
  | Some (Fulfilled v) => Some (Ok v)
  | Some (Rejected e) => Some (Exc e)
  | _ => if (since + timeout <=? clock)%N then Some (Exc TimeoutError) else None
  end.

(** [threading.Event.set] on the [connect_done] of thread [w]. *)
Definition Event_set (w : nat) : Py unit :=
  modify (fun s => add_log (ObsSet w) (set_threads (alter (with_done true) w) s)).

(** [threading.Event.wait(timeout)], looked at [waited] ms after the call:
    [True] when the event is set, [False] once [timeout] has passed. *)
Definition Event_wait (w : nat) (timeout waited : N) : Blocking bool :=
  fun s => (s, match threads s !! w with
               | Some k => if connect_done k then Some (Ok true)
                           else if (timeout <=? waited)%N then Some (Ok false)
                           else None
               | None => None
               end).

(** A method call on [self.ib], or a callable applied to it. *)
Definition call_ib (o : Obs) (f : IB -> IB * Result PyVal) : Py PyVal :=
  fun s => let '(i, r) := f (ib (svc s)) in
           (add_log o (set_svc (with_ib i) s), r).

(** ** [_worker] *)

(** The [try: ... except Exception ... finally: connect_done.set()] at the
    head of [_worker], run by thread [w] with closure [k].  The two lines
    before it give the thread an event loop of its own, which [ib] uses
    inside its calls; they touch nothing of the service. *)
Definition _worker_connect (w : nat) (k : Worker) : Py unit :=
  try_finally
    (try_except
       (call_ib (ObsConnect w) (ib_connect (w_host k) (w_port k) (w_client_id k)) ;;
        modify (set_svc (with_connected true)))
       is_Exception
       (fun e => modify (set_threads
                   (alter (fun k' => with_error (connect_error k' ++ [e]) k') w))))
    (Event_set w).

(** The handler of [except queue.Empty]. *)
Definition on_Empty (w : nat) : Py unit :=
  do c <- read (fun s => _connected (svc s));
  if c then call_ib (ObsSleep w 10) (ib_sleep 10) ;; ret tt else ret tt.

(** The inner [try] of the loop, for the tuple [it] that [get] returned. *)
Definition run_item (w : nat) (it : WorkItem) : Py unit :=
  try_except
    (do result <- call_ib (ObsFunc w (wi_future it))
                    (wi_func it (wi_args it) (wi_kwargs it));
     Future_set_result (wi_future it) result)
    is_Exception
    (fun e => Future_set_exception (wi_future it) e).

(** The body of [while self._running], as the source has it. *)
Definition loop_body (w : nat) : Py unit :=
  try_except
    (do it <- Queue_get 100; run_item w it)
    is_Empty
    (fun _ => on_Empty w).

(** What thread [w] does until its next blocking call, and where it is
    then.  The body of the loop is cut after [get]: a thread that took an
    item is [Executing] it, and its next step calls [func] and settles the
    future, still inside the outer [try].  A thread that left [_worker]
    does nothing. *)
Definition worker_step (w : nat) (k : Worker) : Py WorkerPc :=
  match w_pc k with
  | Connecting => _worker_connect w k ;; ret Looping
  | Looping =>
      do r <- read (fun s => _running (svc s));
      if r then
        try_except
          (do it <- Queue_get 100; ret (Executing it))
          is_Empty
          (fun _ => on_Empty w ;; ret Looping)
      else ret Exited
  | Executing it =>
      try_except (run_item w it) is_Empty (fun _ => on_Empty w) ;; ret Looping
  | Exited => ret Exited
  | Crashed e => raise e
  end.

Definition alive (pc : WorkerPc) : bool :=
  match pc with
  | Exited | Crashed _ => false
  | _ => true
  end.

(** Where thread [w] is after a piece of [_worker]: an exception that
    leaves [_worker] ends the thread. *)
Definition park (w : nat) (r : Sys * Result WorkerPc) : Sys :=
  match r with
  | (s1, Ok pc) => set_threads (alter (with_pc pc) w) s1
  | (s1, Exc e) => set_threads (alter (with_pc (Crashed e)) w) s1
  end.

(** The scheduler lets thread [w] run. *)
Definition sched (w : nat) (s : Sys) : Sys :=
  match threads s !! w with
  | None => s
  | Some k => if alive (w_pc k) then park w (worker_step w k s) else s
  end.

(** ** [start] and [execute] *)

Definition new_worker (host : string) (port client_id : Z) : Worker :=
  {| w_host := host; w_port := port; w_client_id := client_id;
     connect_done := false; connect_error := []; w_pc := Connecting |}.

(** [start] up to [self._thread.start()]; gives the index of the thread. *)
Definition start_spawn (host : string) (port client_id : Z) : Py nat :=
  modify (set_svc (with_running true)) ;;
  do w <- read (fun s => length (threads s));
  modify (set_threads (fun l => l ++ [new_worker host port client_id])) ;;
  modify (set_svc (with_thread (Some w))) ;;
  ret w.

(** The end of [start]: [connect_done.wait(timeout=30)] as a statement,
    then the implicit [return None]. *)
Definition start_wait (w : nat) (waited : N) : Blocking PyVal :=
  fun s => match Event_wait w 30000 waited s with
           | (s1, Some (Ok _)) => (s1, Some (Ok PyNone))
           | (s1, Some (Exc e)) => (s1, Some (Exc e))
           | (s1, None) => (s1, None)
           end.

(** [execute] up to the [await]; gives the future. *)
Definition execute_put (func : Callable) (args : list PyVal)
    (kwargs : list (string * PyVal)) : Py FutId :=
  do future <- Future_new;
  Queue_put {| wi_func := func; wi_args := args; wi_kwargs := kwargs;
               wi_future := future |} ;;
  ret future.

(** ** The system *)

Inductive Event :=
| Start (host : string) (port client_id : Z)
| Submit (func : Callable) (args : list PyVal) (kwargs : list (string * PyVal))
| Sched (w : nat).

Definition step (s : Sys) (ev : Event) : Sys :=
  match ev with
  | Start host port client_id => fst (start_spawn host port client_id s)
  | Submit func args kwargs => fst (execute_put func args kwargs s)
  | Sched w => sched w s
  end.

Definition run (s : Sys) (evs : list Event) : Sys := foldl step s evs.

Inductive reachable (i : IB) : Sys -> Prop :=
| reach_init : reachable i (init i)
| reach_step s ev : reachable i s -> reachable i (step s ev).

(** ** Read-outs of a state *)

Definition pc_of (s : Sys) (w : nat) : option WorkerPc := w_pc <$> threads s !! w.

Definition inflight_of (k : Worker) : list FutId :=
  match w_pc k with
  | Executing it => [wi_future it]
  | _ => []
  end.

(** Futures of the items taken off the queue whose [func] has not run. *)
Definition inflight (s : Sys) : list FutId := concat (inflight_of <$> threads s).

Definition queued (s : Sys) : list FutId := wi_future <$> _task_queue (svc s).

(** Futures of the items whose [func] was called, in the order of the calls. *)
Definition executed (s : Sys) : list FutId :=
  omap (fun o => match o with ObsFunc _ f => Some f | _ => None end) (log s).

Definition pumps (s : Sys) : list (nat * N) :=
  omap (fun o => match o with ObsSleep w ms => Some (w, ms) | _ => None end) (log s).

(** The threads whose [connect_done] was set, one entry for each call. *)
Definition sets (s : Sys) : list nat :=
  omap (fun o => match o with ObsSet w => Some w | _ => None end) (log s).

Definition sets_of (w : nat) (s : Sys) : nat :=
  length (filter (fun x => x = w) (sets s)).

(** The state [run_item] leaves a pending future in, after [func] did [r]. *)
Definition settle (r : Result PyVal) : FutState :=
  match r with
  | Ok v => Fulfilled v
  | Exc e => Rejected e
  end.

(** [r] is a value or an instance of [Exception]. *)
Definition caught (r : Result PyVal) : bool :=
  match r with
  | Ok _ => true
  | Exc e => is_Exception e
  end.

(** Thread [w] is still in its head [try]. *)
Definition connecting (s : Sys) (w : nat) : bool :=
  match pc_of s w with
  | Some Connecting => true
  | _ => false
  end.

(** Thread [w] exists and has left its head [try]. *)
Definition past_connect (s : Sys) (w : nat) : bool :=
  match pc_of s w with
  | Some Connecting | None => false
  | Some _ => true
  end.

Definition is_Start (ev : Event) : bool :=
  match ev with
  | Start _ _ _ => true
  | _ => false
  end.

Definition starts (evs : list Event) : nat := length (List.filter is_Start evs).

Definition is_Submit (ev : Event) : bool :=
  match ev with
  | Submit _ _ _ => true
  | _ => false
  end.

(** The calls of [execute] among [evs]. *)
Definition submits (evs : list Event) : nat := length (List.filter is_Submit evs).

(** No thread is running [_worker]: none was started, or all have ended. *)
Definition no_worker (s : Sys) : Prop :=
  Forall (fun k => alive (w_pc k) = false) (threads s).

(** A pending future that is neither in the queue nor taken by a thread. *)
Definition orphan (f : FutId) (s : Sys) : Prop :=
  futures s !! f = Some Pending ∧
  f ∉ concat (inflight_of <$> threads s) ++ (wi_future <$> _task_queue (svc s)).

(** ** The await of [execute]

    [await loop.run_in_executor(None, future.result, 30)] hands the call
    [future.result(30)] to the default executor of the event loop: a pool of
    [max_workers] threads that takes the calls handed to it in the order
    they came, each when one of its threads is free.  The 30 seconds of a
    call run from the moment a thread of the pool enters it.  The coroutine
    that awaits is resumed with what the call returned or raised.

    A [World] is the service together with the clock and the awaits made so
    far; [Action]s are the steps of the service, a thread of the pool taking
    the oldest call that waits, and the passing of time.  The steps of the
    service take no time themselves: an operation lasts as long as the
    clock moves between the step in which the worker takes its item and the
    step in which it runs it.  The pool serves the awaits of [execute]
    only. *)

Inductive AwaitState :=
| Waiting                     (* handed to the executor, not taken by a thread *)
| Blocked (since : N)         (* a thread of the pool is inside [future.result(30)] *)
| Returned (r : Result PyVal) (* the await returned the value or raised *)
| Hung.                       (* the call raised [StopIteration]: the await never returns *)

Record Await := {
  aw_future : FutId;
  aw_state : AwaitState;
}.

Record World := {
  sys : Sys;
  clock : N;
  awaits : list Await;
  max_workers : nat;
}.

(** What the awaiting coroutine gets when the call in the pool ended with
    [r]: the outcome is copied to the future of the event loop, whose
    [set_exception] raises on [StopIteration], leaving that future pending. *)
Definition wrap_future (r : Result PyVal) : AwaitState :=
  match r with
  | Ok v => Returned (Ok v)
  | Exc e => if is_StopIteration e then Hung else Returned (Exc e)
  end.

(** A thread of the pool that is inside [future.result(30)] looks at the
    future: with state [s] of the service, at time [t]. *)
Definition poll (s : Sys) (t : N) (a : Await) : Await :=
  match aw_state a with
  | Blocked since =>
      match Future_result (aw_future a) 30000 since t s with
      | Some r => {| aw_future := aw_future a; aw_state := wrap_future r |}
      | None => a
      end
  | _ => a
  end.

Definition is_Blocked (a : Await) : bool :=
  match aw_state a with
  | Blocked _ => true
  | _ => false
  end.

(** The threads of the pool that are inside a call. *)
Definition busy (l : list Await) : nat := length (List.filter is_Blocked l).

(** The oldest call that waits is entered at time [t]. *)
Fixpoint take_oldest (t : N) (l : list Await) : list Await :=
  match l with
  | [] => []
  | a :: l' =>
      match aw_state a with
      | Waiting => {| aw_future := aw_future a; aw_state := Blocked t |} :: l'
      | _ => a :: take_oldest t l'
      end
  end.

(** The time from [t] to the first deadline of a call entered, at most [d]. *)
Definition until_deadline (t d : N) (l : list Await) : N :=
  foldr (fun a m => match aw_state a with
                    | Blocked since => N.min m (since + 30000 - t)
                    | _ => m
                    end) d l.

(** The [await] of [execute], entered right after the [put]. *)
Definition run_in_executor (ev : Event) (s : Sys) : list Await :=
  match ev with
  | Submit _ _ _ => [{| aw_future := length (futures s); aw_state := Waiting |}]
  | _ => []
  end.

Inductive Action :=
| Act (ev : Event)   (* a step of the service; [Submit] is a call of [execute] *)
| Take               (* a free thread of the pool takes the oldest waiting call *)
| Tick (d : N).      (* [d] ms pass, or less: time stops at the next deadline *)

Definition act (w : World) (a : Action) : World :=
  match a with
  | Act ev =>
      let s1 := step (sys w) ev in
      {| sys := s1; clock := clock w;
         awaits := poll s1 (clock w) <$> (awaits w ++ run_in_executor ev (sys w));
         max_workers := max_workers w |}
  | Take =>
      if decide (busy (awaits w) < max_workers w) then
        {| sys := sys w; clock := clock w;
           awaits := poll (sys w) (clock w) <$> take_oldest (clock w) (awaits w);
           max_workers := max_workers w |}
      else w
  | Tick d =>
      let t := (clock w + until_deadline (clock w) d (awaits w))%N in
      {| sys := sys w; clock := t; awaits := poll (sys w) t <$> awaits w;
         max_workers := max_workers w |}
  end.

Definition arun (w : World) (acts : list Action) : World := foldl act w acts.

(** The steps of the service among [acts]. *)
Definition events (acts : list Action) : list Event :=
  omap (fun a => match a with Act ev => Some ev | _ => None end) acts.

(** The service in state [s], no call of [execute] made yet, with a pool
    of [n] threads. *)
Definition world (s : Sys) (n : nat) : World :=
  {| sys := s; clock := 0; awaits := []; max_workers := n |}.

(** The await is still where a pending future leaves it: waiting for a
    thread, inside the call, or ended by the time-out of the call. *)
Definition unserved (st : AwaitState) : bool :=
  match st with
  | Waiting | Blocked _ | Returned (Exc TimeoutError) => true
  | _ => false
  end.

End Bridge.

(** ** A test double for the connection

    [MockIB] stands for a connection whose behaviour is scripted: the
    gateway at "127.0.0.1" accepts, the one at "10.0.0.1" refuses, any other
    host does not answer; [sleep] needs the link to be up. *)

Record MockIB := {
  up : bool;
  ticks : nat;
}.

Definition mock_connect (host : string) (port client_id : Z) (i : MockIB)
    : MockIB * Result PyVal :=
  if String.eqb host "127.0.0.1" then ({| up := true; ticks := ticks i |}, Ok PyNone)
  else if String.eqb host "10.0.0.1" then (i, Exc ConnectionRefusedError)
  else (i, Exc TimeoutError).

Definition mock_sleep (ms : N) (i : MockIB) : MockIB * Result PyVal :=
  if up i then ({| up := true; ticks := S (ticks i) |}, Ok PyNone)
  else (i, Exc (ConnectionError "Not connected")).

#[export] Instance mock_api : IBApi MockIB := {|
  ib_connect := mock_connect;
  ib_sleep := mock_sleep;
|}.

Definition mock0 : MockIB := {| up := false; ticks := 0 |}.

(** Callables as the routers submit them. *)

(** Returns its first argument. *)
Definition echo : @Callable MockIB :=
  fun args _ i => (i, Ok (default PyNone (head args))).

(** Raises. *)
Definition boom : @Callable MockIB :=
  fun _ _ i => (i, Exc (ValueError "boom")).

(** Closes the link, as [ib.disconnect()] does. *)
Definition hang_up : @Callable MockIB :=
  fun _ _ i => ({| up := false; ticks := ticks i |}, Ok PyNone).

(** Runs of the service on the test double. *)

Definition gateway : @Event MockIB := Start "127.0.0.1" 7497 1.

(** Connected; [boom] was submitted and taken by the worker. *)
Definition taken_boom : @Sys MockIB :=
  run (init mock0) [gateway; Sched 0; Submit boom [] []; Sched 0].

(** Three operations submitted: the first was run, the second is taken,
    the third waits. *)
Definition three_submitted : @Sys MockIB :=
  run (init mock0)
    [gateway; Sched 0; Submit echo [PyInt 1] []; Submit echo [PyInt 2] [];
     Submit echo [PyInt 3] []; Sched 0; Sched 0; Sched 0].

(** [sched w] applied [n] times: [n] steps of thread [w] in a row. *)
Definition sched_n {IB} `{!IBApi IB} (w n : nat) (s : @Sys IB) : Sys :=
  Nat.iter n (sched w) s.

(** [start] was called for a host that does not answer; [ib.connect] has
    not returned. *)
Definition dialling : @Sys MockIB := run (init mock0) [Start "192.0.2.7" 7497 1].

(** [start] was called for the gateway; [ib.connect] has not returned. *)
Definition starting : @Sys MockIB := run (init mock0) [gateway].

(** The handshake failed: refused, and timed out. *)
Definition refused : @Sys MockIB := run (init mock0) [Start "10.0.0.1" 7497 1; Sched 0].

Definition unanswered : @Sys MockIB := run dialling [Sched 0].

(** Connected; then a submitted operation closed the link.  The worker is
    back at the head of its loop and the queue is empty. *)
Definition link_down : @Sys MockIB :=
  run (init mock0) [gateway; Sched 0; Submit hang_up [] []; Sched 0; Sched 0].

(** After a refused handshake, an operation is submitted and the worker
    steps twice. *)
Definition served_unconnected : @Sys MockIB :=
  run refused [Submit echo [PyInt 7] []; Sched 0; Sched 0].

(** [start] was called twice; three operations were submitted; the first
    thread has taken the first, the second thread has taken and run the
    second, the third waits. *)
Definition two_workers : @Sys MockIB :=
  run (init mock0)
    [gateway; Sched 0; gateway; Sched 1; Submit echo [PyInt 1] [];
     Submit echo [PyInt 2] []; Submit echo [PyInt 3] []; Sched 0; Sched 1; Sched 1].

(** Two threads in the loop and two operations waiting. *)
Definition two_idle_workers : @Sys MockIB :=
  run (init mock0)
    [gateway; Sched 0; gateway; Sched 1; Submit echo [PyInt 1] [];
     Submit echo [PyInt 2] []].

(** Raises [SystemExit], as [sys.exit()] does. *)
Definition quit : @Callable MockIB :=
  fun _ _ i => (i, Exc SystemExit).

(** Connected; [quit] was submitted and taken by the worker. *)
Definition taken_quit : @Sys MockIB :=
  run (init mock0) [gateway; Sched 0; Submit quit [] []; Sched 0].

(** The closure of a thread started for the gateway, in its loop. *)
Definition gateway_worker : @Worker MockIB :=
  {| w_host := "127.0.0.1"; w_port := 7497; w_client_id := 1;
     connect_done := true; connect_error := []; w_pc := Looping |}.

Definition echo_item (n : Z) (f : FutId) : @WorkItem MockIB :=
  {| wi_func := echo; wi_args := [PyInt n]; wi_kwargs := []; wi_future := f |}.

(** Connected and idle. *)
Definition idle : @Sys MockIB := run (init mock0) [gateway; Sched 0].

(** Runs with the awaits.  The pool has eight threads, the default of a
    machine with four processors. *)

(** Connected; [boom] was handed to [execute], a thread of the pool is
    inside [future.result(30)], and the worker has taken the item. *)
Definition slow_boom : @World MockIB :=
  arun (world (init mock0) 8)
    [Act gateway; Act (Sched 0); Act (Submit boom [] []); Take; Act (Sched 0)].

(** No worker was started; nine calls of [execute] are awaiting. *)
Definition nine_awaits : @World MockIB :=
  arun (world (init mock0) 8) (replicate 9 (Act (Submit echo [PyInt 1] []))).

(** The eight threads of the pool have each entered a call; the ninth call
    waits. *)
Definition saturated : @World MockIB := arun nine_awaits (replicate 8 Take).

(** ** The browser side: [WebSocketClient] (frontend/src/lib/websocket.ts)

    The client that receives what the backend publishes.  The browser's
    [WebSocket] objects are the list [sockets] (their [readyState], in the
    order of creation); [ws] names the current one.  What the client does to
    the outside is recorded: [sent] for [ws.send], [timers] for the delays
    given to [setTimeout], [errors] for the calls of [console.error].
    Callbacks are named by numbers (their identity in the [Set]); a [Set] is
    the list of its members in the order of insertion. *)

Module WebSocketClient.

Inductive ReadyState := CONNECTING | OPEN | CLOSING | CLOSED.

(** The object [subscribe] and [unsubscribe] give to [JSON.stringify]. *)
Record Request := {
  action : string;
  channel : string;
}.

Record Client := {
  sockets : list ReadyState;
  ws : option nat;
  callbacks : gmap string (list nat);
  reconnectAttempts : nat;
  isIntentionallyClosed : bool;
  sent : list (nat * Request);
  timers : list N;
  errors : nat;
}.

Definition maxReconnectAttempts : nat := 5.
Definition reconnectDelay : N := 1000.

(** [new WebSocketClient(url)]. *)
Definition new : Client :=
  {| sockets := []; ws := None; callbacks := ∅; reconnectAttempts := 0;
     isIntentionallyClosed := false; sent := []; timers := []; errors := 0 |}.

(** [this.ws.readyState] of the current socket. *)
Definition readyState (c : Client) : option ReadyState :=
  j ← ws c; sockets c !! j.

Definition isConnected (c : Client) : bool :=
  match readyState c with
  | Some OPEN => true
  | _ => false
  end.

(** [connect]: nothing when the current socket is open or opening; else
    [new WebSocket(this.url)].  [throws] says what the constructor does in
    this call: when it returns, the new socket becomes the current one and
    [isIntentionallyClosed] is cleared; when it throws (a url the browser
    refuses), the [catch] rejects the promise, and [this.ws] and
    [isIntentionallyClosed], not yet assigned, are as they were. *)
Definition connect (throws : bool) (c : Client) : Client :=
  match readyState c with
  | Some OPEN | Some CONNECTING => c
  | _ =>
      if throws then c
      else
        {| sockets := sockets c ++ [CONNECTING]; ws := Some (length (sockets c));
           callbacks := callbacks c; reconnectAttempts := reconnectAttempts c;
           isIntentionallyClosed := false; sent := sent c; timers := timers c;
           errors := errors c |}
  end.

(** [attemptReconnect]: gives up at [maxReconnectAttempts]; else counts the
    attempt and sets a timer of [reconnectDelay * 2 ^ (attempts - 1)]. *)
Definition attemptReconnect (c : Client) : Client :=
  if decide (maxReconnectAttempts ≤ reconnectAttempts c) then
    {| sockets := sockets c; ws := ws c; callbacks := callbacks c;
       reconnectAttempts := reconnectAttempts c;
       isIntentionallyClosed := isIntentionallyClosed c; sent := sent c;
       timers := timers c; errors := S (errors c) |}
  else
    let n := S (reconnectAttempts c) in
    {| sockets := sockets c; ws := ws c; callbacks := callbacks c;
       reconnectAttempts := n;
       isIntentionallyClosed := isIntentionallyClosed c; sent := sent c;
       timers := timers c ++ [(reconnectDelay * 2 ^ N.of_nat (n - 1))%N];
       errors := errors c |}.

(** The handler [onopen] of socket [j], when the browser opens it. *)
Definition onopen (j : nat) (c : Client) : Client :=
  {| sockets := <[j := OPEN]> (sockets c); ws := ws c; callbacks := callbacks c;
     reconnectAttempts := 0;
     isIntentionallyClosed := isIntentionallyClosed c; sent := sent c;
     timers := timers c; errors := errors c |}.

(** The handler [onclose] of socket [j], when the browser closes it (the
    close code only decides whether the promise of [connect] is rejected). *)
Definition onclose (j : nat) (c : Client) : Client :=
  let c1 :=
    {| sockets := <[j := CLOSED]> (sockets c); ws := ws c; callbacks := callbacks c;
       reconnectAttempts := reconnectAttempts c;
       isIntentionallyClosed := isIntentionallyClosed c; sent := sent c;
       timers := timers c; errors := errors c |} in
  if isIntentionallyClosed c then c1 else attemptReconnect c1.

(** [ws.close()] on a socket. *)
Definition close (r : ReadyState) : ReadyState :=
  match r with
  | CLOSED => CLOSED
  | _ => CLOSING
  end.

Definition disconnect (c : Client) : Client :=
  {| sockets := match ws c with
                | Some j => alter close j (sockets c)
                | None => sockets c
                end;
     ws := None; callbacks := callbacks c;
     reconnectAttempts := reconnectAttempts c;
     isIntentionallyClosed := true; sent := sent c; timers := timers c;
     errors := errors c |}.

Definition send (r : Request) (c : Client) : Client :=
  match ws c with
  | Some j =>
      if isConnected c then
        {| sockets := sockets c; ws := ws c; callbacks := callbacks c;
           reconnectAttempts := reconnectAttempts c;
           isIntentionallyClosed := isIntentionallyClosed c;
           sent := sent c ++ [(j, r)]; timers := timers c; errors := errors c |}
      else c
  | None => c
  end.

Definition subscribe (ch : string) (c : Client) : Client :=
  send {| action := "subscribe"; channel := ch |} c.

Definition unsubscribe (ch : string) (c : Client) : Client :=
  send {| action := "unsubscribe"; channel := ch |} c.

Definition with_callbacks (m : gmap string (list nat)) (c : Client) : Client :=
  {| sockets := sockets c; ws := ws c; callbacks := m;
     reconnectAttempts := reconnectAttempts c;
     isIntentionallyClosed := isIntentionallyClosed c; sent := sent c;
     timers := timers c; errors := errors c |}.

(** [Set.add]: a member is not added again. *)
Definition Set_add (cb : nat) (l : list nat) : list nat :=
  if decide (cb ∈ l) then l else l ++ [cb].

Definition Set_delete (cb : nat) (l : list nat) : list nat :=
  filter (fun x => x ≠ cb) l.

Definition on (type : string) (cb : nat) (c : Client) : Client :=
  with_callbacks (<[type := Set_add cb (default [] (callbacks c !! type))]> (callbacks c)) c.

Definition off (type : string) (cb : nat) (c : Client) : Client :=
  match callbacks c !! type with
  | Some l => with_callbacks (<[type := Set_delete cb l]> (callbacks c)) c
  | None => c
  end.

(** The callbacks registered for [type]. *)
Definition registered (type : string) (c : Client) : list nat :=
  default [] (callbacks c !! type).

(** What happens to a client apart from calls of [connect]: the browser
    opens or closes a socket, and the methods of the class are called. *)
Inductive Happening :=
| Opened (j : nat)
| Closed (j : nat)
| Subscribe (ch : string)
| Unsubscribe (ch : string)
| On (type : string) (cb : nat)
| Off (type : string) (cb : nat)
| Disconnect.

Definition happen (c : Client) (h : Happening) : Client :=
  match h with
  | Opened j => onopen j c
  | Closed j => onclose j c
  | Subscribe ch => subscribe ch c
  | Unsubscribe ch => unsubscribe ch c
  | On type cb => on type cb c
  | Off type cb => off type cb c
  | Disconnect => disconnect c
  end.

(** A reconnect that fails: the timer fires and calls [connect], which
    makes a socket, and the socket that is then current is closed by the
    browser. *)
Definition failed_attempt (c : Client) : Client :=
  let c1 := connect false c in
  match ws c1 with
  | Some j => onclose j c1
  | None => c1
  end.

(** The delays of the attempts [from], [from + 1], ... *)
Definition backoff (from n : nat) : list N :=
  (fun j => (1000 * 2 ^ N.of_nat j)%N) <$> seq from n.

End WebSocketClient.

(** ** [formatExpiry] (frontend/src/lib/formatters.ts)

    [YYYYMMDD] to [YYYY-MM-DD]; any string that has not eight characters is
    returned as it is.  Strings are taken as the ones of one-byte
    characters, as the expiry codes are. *)
Definition formatExpiry (expiry : string) : string :=
  if decide (String.length expiry = 8) then
    String.append (String.substring 0 4 expiry)
      (String.append "-" (String.append (String.substring 4 2 expiry)
         (String.append "-" (String.substring 6 2 expiry))))
  else expiry.

(** The dashes taken out again. *)
Definition strip_dashes (s : string) : string :=
  String.append (String.substring 0 4 s)
    (String.append (String.substring 5 2 s) (String.substring 8 2 s)).

(** ** Invariants of the reachable states *)

(** Splits a step of a thread into the paths through [_worker]. *)
Ltac sched_paths :=
  unfold sched, park, worker_step, _worker_connect, run_item, on_Empty, try_finally,
    try_except, bind, ret, raise, read, modify, call_ib, Queue_get,
    Future_set_result, Future_set_exception, Event_set in *;
  repeat (case_match; simplify_eq/=).

Section Invariants.

Context {IB : Type} `{api : !IBApi IB}.
Implicit Types (s : @Sys IB) (it : @WorkItem IB) (k : @Worker IB) (w : nat) (f : FutId).

(** The futures the worker side still has to settle. *)
Definition owned s : list FutId := inflight s ++ queued s.

(** Every future waiting in the queue or taken by a thread is pending and
    belongs to one item only; a thread exists only once [start] has set
    [_running]. *)
Definition wf s : Prop :=
  NoDup (owned s) ∧ (∀ f, f ∈ owned s → futures s !! f = Some Pending) ∧
  (threads s ≠ [] → _running (svc s) = true).

(** The futures are numbered in the order of the calls of [execute]; the
    operations already called, then the one taken, then the ones waiting
    are all of them in that order. *)
Definition fifo s : Prop :=
  executed s ++ inflight s ++ queued s = seq 0 (length (futures s)).

(** [connect_done.set()] was called once for a thread past its head [try],
    and never for any other. *)
Definition set_once s : Prop :=
  ∀ w, sets_of w s = if past_connect s w then 1 else 0.

Lemma inflight_alter (l : list (@Worker IB)) w k (g : Worker → Worker) :
  l !! w = Some k →
  ∃ rest, concat (inflight_of <$> l) ≡ₚ inflight_of k ++ rest ∧
          concat (inflight_of <$> alter g w l) ≡ₚ inflight_of (g k) ++ rest.
Proof.
  revert w. induction l as [|a l IH]; intros [|w] Hw; simplify_eq/=.
  - by exists (concat (inflight_of <$> l)).
  - destruct (IH _ Hw) as (rest & H1 & H2).
    exists (inflight_of a ++ rest). rewrite H1, H2. split; solve_Permutation.
Qed.

Lemma threads_length_sched s w : length (threads (sched w s)) = length (threads s).
Proof. sched_paths; by rewrite ?length_alter. Qed.

Lemma threads_length_step s ev : length (threads s) ≤ length (threads (step s ev)).
Proof.
  destruct ev; simpl.
  - rewrite length_app. lia.
  - done.
  - by rewrite threads_length_sched.
Qed.

Lemma running_sched s w : _running (svc (sched w s)) = _running (svc s).
Proof. sched_paths; done. Qed.

Lemma wf_init i : wf (init i).
Proof. repeat split; [constructor | by intros f ?%elem_of_nil | done]. Qed.

(** A step of a thread either keeps the futures still to settle and the
    state of every future, or it is the call of [func] for one of them,
    [f], which is no longer to settle and is the only one that may have
    been settled. *)
Lemma sched_owned s w :
  (owned (sched w s) ≡ₚ owned s ∧ futures (sched w s) = futures s) ∨
  (∃ f, owned s ≡ₚ f :: owned (sched w s) ∧
        (futures (sched w s) = futures s ∨
         ∃ st, futures (sched w s) = <[f := st]> (futures s))).
Proof.
  unfold owned, inflight, queued.
  sched_paths; rewrite ?list_alter_alter_eq; try (by left).
  all: match goal with
       | H : threads _ !! _ = Some ?k |- context [alter ?g _ _] =>
           destruct (inflight_alter _ _ _ g H) as (rest & E1 & E2);
           unfold inflight_of in E1, E2; simpl in E1, E2;
           repeat match goal with H' : w_pc k = _ |- _ => rewrite H' in E1; clear H' end;
           simpl in E1, E2
       end.
  all: repeat match goal with H : _task_queue _ = _ |- _ => rewrite H; clear H end.
  all: first [ left; rewrite E1, E2; split; [solve_Permutation | done]
             | right; eexists; rewrite E1, E2; split; [simpl; reflexivity | eauto] ].
Qed.

Lemma wf_sched s w : wf s → wf (sched w s).
Proof.
  intros (Hnd & Hp & Hr). split_and!.
  - destruct (sched_owned s w) as [[E _]|(f & E & _)].
    + by rewrite E.
    + rewrite E in Hnd. by apply NoDup_cons in Hnd as [_ ?].
  - intros f Hf. destruct (sched_owned s w) as [[E ->]|(f' & E & Hfu)].
    + apply Hp. by rewrite <- E.
    + rewrite E in Hnd. setoid_rewrite E in Hp. apply NoDup_cons in Hnd as [Hf1 _].
      assert (f ≠ f') by (by intros ->).
      destruct Hfu as [->|[st ->]].
      * apply Hp. by right.
      * rewrite list_lookup_insert_ne by done. apply Hp. by right.
  - rewrite running_sched. intros Ht. apply Hr. intros E.
    apply Ht. apply length_zero_iff_nil. rewrite threads_length_sched. by rewrite E.
Qed.

Lemma inflight_start s host port client_id :
  inflight (fst (start_spawn host port client_id s)) = inflight s.
Proof.
  unfold inflight. simpl. rewrite fmap_app, concat_app. simpl. by rewrite app_nil_r.
Qed.

Lemma wf_step s ev : wf s → wf (step s ev).
Proof.
  intros Hwf. destruct ev as [host port cid|func args kwargs|w]; [| |by apply wf_sched].
  - destruct Hwf as (Hnd & Hp & _). unfold wf, owned in *.
    change (step s (Start host port cid)) with (fst (start_spawn host port cid s)).
    rewrite inflight_start. split_and!; [exact Hnd | exact Hp | done].
  - destruct Hwf as (Hnd & Hp & Hr). unfold wf, owned, queued in *. simpl.
    rewrite fmap_app, app_assoc. simpl.
    change (concat (inflight_of <$> threads s)) with (inflight s).
    assert (length (futures s) ∉ inflight s ++ (wi_future <$> _task_queue (svc s))) as Hfresh.
    { intros Hin. apply Hp, lookup_lt_Some in Hin. lia. }
    split_and!; [| |done].
    + apply NoDup_app. split_and!; [done| |apply NoDup_singleton].
      intros f Hf ->%list_elem_of_singleton. done.
    + intros f [Hf| ->%list_elem_of_singleton]%elem_of_app.
      * rewrite lookup_app_l; [by apply Hp|]. by apply Hp, lookup_lt_Some in Hf.
      * by rewrite lookup_app_r, Nat.sub_diag.
Qed.

Lemma wf_reachable i s : reachable i s → wf s.
Proof. induction 1; [apply wf_init | by apply wf_step]. Qed.

Lemma reachable_run i s evs : reachable i s → reachable i (run s evs).
Proof.
  revert s. induction evs as [|ev evs IH]; intros s Hs; [done|].
  simpl. apply IH. by constructor.
Qed.

End Invariants.

(** ** The paths through [_worker], one equation each *)

Section Paths.

Context {IB : Type} `{api : !IBApi IB}.
Implicit Types (s : @Sys IB) (it : @WorkItem IB) (k : @Worker IB) (w : nat) (f : FutId).

Ltac path_eq :=
  intros; unfold sched;
  repeat match goal with
         | H : ?x = _ |- context [?x] => rewrite H; simpl
         end;
  sched_paths;
  first [ done
        | match goal with
          | H1 : ?x = true, H2 : ?x = false |- _ => rewrite H1 in H2; discriminate
          | H1 : is_Exception ?e = false, H2 : is_Empty ?e = true |- _ =>
              destruct e; discriminate
          end
        | congruence ].

Lemma sched_dead s w k :
  threads s !! w = Some k → alive (w_pc k) = false → sched w s = s.
Proof. path_eq. Qed.

Lemma sched_absent s w : threads s !! w = None → sched w s = s.
Proof. path_eq. Qed.

Lemma sched_connect_ok s w k i v :
  threads s !! w = Some k → w_pc k = Connecting →
  ib_connect (w_host k) (w_port k) (w_client_id k) (ib (svc s)) = (i, Ok v) →
  sched w s =
    set_threads (alter (with_pc Looping) w)
      (add_log (ObsSet w) (set_threads (alter (with_done true) w)
        (set_svc (with_connected true)
          (add_log (ObsConnect w) (set_svc (with_ib i) s))))).
Proof. path_eq. Qed.

Lemma sched_connect_exc s w k i e :
  threads s !! w = Some k → w_pc k = Connecting →
  ib_connect (w_host k) (w_port k) (w_client_id k) (ib (svc s)) = (i, Exc e) →
  sched w s =
    set_threads (alter (with_pc (if is_Exception e then Looping else Crashed e)) w)
      (add_log (ObsSet w) (set_threads (alter (with_done true) w)
        ((if is_Exception e
          then set_threads (alter (fun k' => with_error (connect_error k' ++ [e]) k') w)
          else id)
          (add_log (ObsConnect w) (set_svc (with_ib i) s))))).
Proof. path_eq. Qed.

Lemma sched_exit s w k :
  threads s !! w = Some k → w_pc k = Looping → _running (svc s) = false →
  sched w s = set_threads (alter (with_pc Exited) w) s.
Proof. path_eq. Qed.

Lemma sched_get s w k it q :
  threads s !! w = Some k → w_pc k = Looping → _running (svc s) = true →
  _task_queue (svc s) = it :: q →
  sched w s = set_threads (alter (with_pc (Executing it)) w) (set_svc (with_queue q) s).
Proof. path_eq. Qed.

Lemma sched_empty_idle s w k :
  threads s !! w = Some k → w_pc k = Looping → _running (svc s) = true →
  _task_queue (svc s) = [] → _connected (svc s) = false →
  sched w s = set_threads (alter (with_pc Looping) w) s.
Proof. path_eq. Qed.

Lemma sched_empty_pump s w k i r :
  threads s !! w = Some k → w_pc k = Looping → _running (svc s) = true →
  _task_queue (svc s) = [] → _connected (svc s) = true →
  ib_sleep 10 (ib (svc s)) = (i, r) →
  sched w s =
    set_threads
      (alter (with_pc (match r with Ok _ => Looping | Exc e => Crashed e end)) w)
      (add_log (ObsSleep w 10) (set_svc (with_ib i) s)).
Proof. path_eq. Qed.

Lemma sched_run_ok s w k it i v :
  threads s !! w = Some k → w_pc k = Executing it →
  futures s !! wi_future it = Some Pending →
  wi_func it (wi_args it) (wi_kwargs it) (ib (svc s)) = (i, Ok v) →
  sched w s =
    set_threads (alter (with_pc Looping) w)
      (set_futures (fun l => <[wi_future it := Fulfilled v]> l)
        (add_log (ObsFunc w (wi_future it)) (set_svc (with_ib i) s))).
Proof. path_eq. Qed.

Lemma sched_run_exc s w k it i e :
  threads s !! w = Some k → w_pc k = Executing it →
  futures s !! wi_future it = Some Pending →
  wi_func it (wi_args it) (wi_kwargs it) (ib (svc s)) = (i, Exc e) →
  is_Exception e = true →
  sched w s =
    set_threads (alter (with_pc Looping) w)
      (set_futures (fun l => <[wi_future it := Rejected e]> l)
        (add_log (ObsFunc w (wi_future it)) (set_svc (with_ib i) s))).
Proof. path_eq. Qed.

Lemma sched_run_fatal s w k it i e :
  threads s !! w = Some k → w_pc k = Executing it →
  wi_func it (wi_args it) (wi_kwargs it) (ib (svc s)) = (i, Exc e) →
  is_Exception e = false →
  sched w s =
    set_threads (alter (with_pc (Crashed e)) w)
      (add_log (ObsFunc w (wi_future it)) (set_svc (with_ib i) s)).
Proof. path_eq. Qed.

Lemma pc_of_alter s w k pc :
  threads s !! w = Some k → pc_of (set_threads (alter (with_pc pc) w) s) w = Some pc.
Proof.
  intros Hk. unfold pc_of. simpl. by rewrite list_lookup_alter_eq, Hk.
Qed.

Lemma inflight_elem s w k it :
  threads s !! w = Some k → w_pc k = Executing it → wi_future it ∈ inflight s.
Proof.
  intros Hk Hpc. unfold inflight.
  destruct (inflight_alter _ _ _ id Hk) as (rest & -> & _).
  unfold inflight_of. rewrite Hpc. by left.
Qed.

(** The future of an item a thread has taken is pending. *)
Lemma executing_pending i s w k it :
  reachable i s → threads s !! w = Some k → w_pc k = Executing it →
  futures s !! wi_future it = Some Pending.
Proof.
  intros (_ & Hp & _)%wf_reachable Hk Hpc. apply Hp, elem_of_app. left.
  by eapply inflight_elem.
Qed.

Lemma running_reachable i s w k :
  reachable i s → threads s !! w = Some k → _running (svc s) = true.
Proof.
  intros (_ & _ & Hr)%wf_reachable Hk. apply Hr. intros E. by rewrite E in Hk.
Qed.

(** The cut of the loop body after [get] loses nothing: for a thread at the
    head of the loop with [_running] set, one step on the empty queue, and
    two steps otherwise, are one run of the body as the source has it. *)
Lemma loop_body_cut s w k :
  threads s !! w = Some k → w_pc k = Looping → _running (svc s) = true →
  (if _task_queue (svc s) is [] then sched w s else sched w (sched w s))
  = park w (bind (loop_body w) (fun _ => ret Looping) s).
Proof.
  intros Hk Hpc Hrun. destruct (_task_queue (svc s)) as [|it q] eqn:Hq.
  - unfold loop_body. unfold sched. rewrite Hk, Hpc. simpl. sched_paths; congruence.
  - rewrite (sched_get s w k it q) by done.
    set (s1 := set_threads _ _).
    assert (threads s1 !! w = Some (with_pc (Executing it) k)) as Hk1.
    { simpl. by rewrite list_lookup_alter_eq, Hk. }
    unfold sched. rewrite Hk1. simpl.
    unfold loop_body, worker_step, bind, try_except, Queue_get, ret. rewrite Hq.
    simpl.
    change (run_item w it (set_svc (with_queue q) s))
      with (run_item w it {| svc := with_queue q (svc s); futures := futures s;
                             threads := threads s; log := log s |}).
    assert (∀ s' r, run_item w it s1 = (s', r) →
              ∃ s'', run_item w it (set_svc (with_queue q) s) = (s'', r) ∧
                     svc s' = svc s'' ∧ futures s' = futures s'' ∧ log s' = log s'' ∧
                     threads s' = alter (with_pc (Executing it)) w (threads s'')) as Hsim.
    { intros s' r. subst s1. unfold run_item, try_except, bind, call_ib,
        Future_set_result, Future_set_exception. simpl.
      repeat (case_match; simplify_eq/=); intros; simplify_eq; eexists; done. }
    destruct (run_item w it s1) as [s' r] eqn:Hrun1.
    destruct (Hsim _ _ eq_refl) as (s'' & Hrun2 & Hsvc & Hfut & Hlog & Hthr).
    unfold set_svc in Hrun2. simpl in Hrun2. rewrite Hrun2.
    destruct s' as [sv fu th lg], s'' as [sv' fu' th' lg']. simpl in *. subst.
    unfold on_Empty, bind, read, call_ib, ret. simpl.
    repeat (case_match; simplify_eq/=); unfold set_threads; simpl;
      by rewrite ?list_alter_alter_eq.
Qed.

(** A thread that runs a taken item calls [func] once and settles the
    item's future with what [func] did; nothing else changes but the
    connection, and the thread is back at the head of the loop. *)
Lemma sched_run s w k it i r :
  threads s !! w = Some k → w_pc k = Executing it →
  futures s !! wi_future it = Some Pending →
  wi_func it (wi_args it) (wi_kwargs it) (ib (svc s)) = (i, r) →
  caught r = true →
  sched w s =
    set_threads (alter (with_pc Looping) w)
      (set_futures (fun l => <[wi_future it := settle r]> l)
        (add_log (ObsFunc w (wi_future it)) (set_svc (with_ib i) s))).
Proof.
  intros Hk Hpc Hf Hr Hc. destruct r as [v|e]; simpl in *.
  - by eapply sched_run_ok.
  - by eapply sched_run_exc.
Qed.

Lemma executed_add_func s w f : executed (add_log (ObsFunc w f) s) = executed s ++ [f].
Proof. unfold executed. simpl. by rewrite omap_app. Qed.

(** An operation submitted to an idle worker is taken and run by the
    worker's next two steps. *)
Lemma submit_served s w k func args kwargs i r :
  threads s !! w = Some k → w_pc k = Looping → _running (svc s) = true →
  _task_queue (svc s) = [] →
  func args kwargs (ib (svc s)) = (i, r) → caught r = true →
  let s2 := run s [Submit func args kwargs; Sched w; Sched w] in
  futures s2 !! length (futures s) = Some (settle r) ∧
  pc_of s2 w = Some Looping ∧
  executed s2 = executed s ++ [length (futures s)] ∧
  _task_queue (svc s2) = [].
Proof.
  intros Hk Hpc Hrun Hq Hf Hc. unfold run. cbn [foldl step].
  set (it := {| wi_func := func; wi_args := args; wi_kwargs := kwargs;
                wi_future := length (futures s) |}).
  set (s1 := fst (execute_put func args kwargs s)).
  assert (threads s1 !! w = Some k) as Hk1 by done.
  assert (_task_queue (svc s1) = [it]) as Hq1 by (simpl; by rewrite Hq).
  rewrite (sched_get s1 w k it []) by done.
  set (s2 := set_threads _ _).
  assert (threads s2 !! w = Some (with_pc (Executing it) k)) as Hk2.
  { simpl. by rewrite list_lookup_alter_eq, Hk. }
  assert (futures s2 !! wi_future it = Some Pending) as Hp2.
  { simpl. by rewrite lookup_app_r, Nat.sub_diag. }
  rewrite (sched_run s2 w _ it i r Hk2 eq_refl Hp2 Hf Hc).
  split_and!.
  - simpl. rewrite list_lookup_insert_eq; [done|]. rewrite length_app. simpl. lia.
  - by erewrite pc_of_alter.
  - unfold executed. simpl. by rewrite omap_app.
  - done.
Qed.

End Paths.

(** ** The readiness event is set once *)

Section Readiness.

Context {IB : Type} `{api : !IBApi IB}.
Implicit Types (s : @Sys IB) (it : @WorkItem IB) (k : @Worker IB) (w : nat) (f : FutId).

Lemma threads_sched_ne s w w' : w ≠ w' → threads (sched w s) !! w' = threads s !! w'.
Proof. intros Hne. sched_paths; by rewrite ?list_lookup_alter_ne. Qed.

(** Only the head [try] of a thread calls [set]. *)
Lemma sets_sched s w :
  sets (sched w s) = sets s ++ (if connecting s w then [w] else []).
Proof.
  unfold sets, connecting, pc_of.
  sched_paths; rewrite ?omap_app; simpl; rewrite ?app_nil_r; done.
Qed.

(** No step of a thread leaves it in its head [try]. *)
Lemma pc_sched_not_connecting s w k :
  threads s !! w = Some k → ∃ pc, pc_of (sched w s) w = Some pc ∧ pc ≠ Connecting.
Proof.
  intros Hk. unfold pc_of.
  sched_paths; rewrite ?list_lookup_alter_eq;
    repeat match goal with H : threads _ !! _ = Some _ |- _ => rewrite H end;
    simpl; try (eexists; split; [reflexivity|done]).
  eexists; split; [reflexivity|]. by destruct (w_pc k).
Qed.

Lemma past_connect_sched s w k :
  threads s !! w = Some k → past_connect (sched w s) w = true.
Proof.
  intros (pc & Hpc & Hne)%pc_sched_not_connecting.
  unfold past_connect. rewrite Hpc. by destruct pc.
Qed.

Lemma set_once_sched s w : set_once s → set_once (sched w s).
Proof.
  intros Hinv w'. unfold sets_of. rewrite sets_sched, filter_app, length_app.
  fold (sets_of w' s). rewrite Hinv.
  destruct (decide (w = w')) as [<-|Hne].
  - destruct (threads s !! w) as [k|] eqn:Hk.
    + rewrite (past_connect_sched _ _ _ Hk).
      unfold connecting, past_connect, pc_of. rewrite Hk. simpl.
      destruct (w_pc k); simpl; rewrite ?filter_cons_True by done; done.
    + rewrite sched_absent by done.
      unfold connecting, past_connect, pc_of. rewrite Hk. done.
  - unfold past_connect, pc_of. rewrite threads_sched_ne by done.
    destruct (connecting s w); simpl; rewrite ?filter_cons_False by done; simpl; lia.
Qed.

Lemma set_once_step s ev : set_once s → set_once (step s ev).
Proof.
  intros Hinv. destruct ev as [host port cid|func args kwargs|w];
    [| |by apply set_once_sched].
  - intros w. specialize (Hinv w). unfold sets_of, sets, past_connect, pc_of in *.
    simpl. destruct (decide (w < length (threads s))) as [Hlt|Hge].
    + by rewrite lookup_app_l.
    + rewrite lookup_ge_None_2 in Hinv by lia.
      rewrite Hinv. rewrite lookup_app_r by lia.
      by destruct (w - length (threads s)) as [|[|]].
  - exact Hinv.
Qed.

Lemma set_once_reachable i s : reachable i s → set_once s.
Proof. induction 1; [by intros w; destruct w | by apply set_once_step]. Qed.

Lemma past_connect_step s ev w :
  past_connect s w = true → past_connect (step s ev) w = true.
Proof.
  intros Hp. destruct ev as [host port cid|func args kwargs|w']; [| done |].
  - unfold past_connect, pc_of in *. simpl.
    destruct (threads s !! w) as [k|] eqn:Hk; [|done].
    by rewrite (lookup_app_l_Some _ _ _ _ Hk).
  - simpl. destruct (decide (w' = w)) as [->|Hne].
    + unfold past_connect, pc_of in Hp.
      destruct (threads s !! w) as [k|] eqn:Hk; [|done].
      by eapply past_connect_sched.
    + unfold past_connect, pc_of in *. by rewrite threads_sched_ne.
Qed.

Lemma past_connect_run s evs w :
  past_connect s w = true → past_connect (run s evs) w = true.
Proof.
  revert s. induction evs as [|ev evs IH]; intros s Hp; [done|].
  simpl. by apply IH, past_connect_step.
Qed.

(** Once a thread has left its head [try], its event has been set once,
    whatever happens next. *)
Lemma set_exactly_once i s w evs :
  reachable i s → past_connect s w = true → sets_of w (run s evs) = 1.
Proof.
  intros Hreach Hp.
  rewrite (set_once_reachable i (run s evs)) by (by apply reachable_run).
  by rewrite past_connect_run.
Qed.

End Readiness.

(** ** The order of execution with one worker *)

Section Fifo.

Context {IB : Type} `{api : !IBApi IB}.
Implicit Types (s : @Sys IB) (it : @WorkItem IB) (k : @Worker IB) (w : nat) (f : FutId).

Lemma fifo_sched s w : length (threads s) ≤ 1 → fifo s → fifo (sched w s).
Proof.
  intros Hlen Hfifo.
  destruct (threads s) as [|k [|]] eqn:Ht; simpl in Hlen; [| |lia].
  { rewrite sched_absent; [done|]. by rewrite Ht. }
  destruct w as [|w]; [|rewrite sched_absent; [done|]; by rewrite Ht].
  unfold fifo, executed, inflight, queued in *. rewrite Ht in Hfifo.
  simpl in Hfifo. rewrite app_nil_r in Hfifo.
  unfold sched. rewrite Ht. simpl.
  destruct (alive (w_pc k)) eqn:Halive.
  2:{ rewrite Ht. simpl. by rewrite app_nil_r. }
  unfold inflight_of in Hfifo.
  sched_paths.
  all: repeat match goal with
              | H : w_pc _ = _ |- _ => try rewrite H in Hfifo; clear H
              end.
  all: repeat match goal with
              | H : _task_queue _ = _ |- _ =>
                  try rewrite H in Hfifo; try rewrite H; clear H
              end.
  all: simpl in Hfifo.
  all: rewrite ?Ht, ?omap_app; simpl; rewrite ?length_insert, ?app_nil_r, <- ?app_assoc.
  all: try done.
  all: by rewrite app_nil_r in Hfifo.
Qed.

Lemma fifo_step s ev : length (threads (step s ev)) ≤ 1 → fifo s → fifo (step s ev).
Proof.
  destruct ev as [host port cid|func args kwargs|w]; intros Hlen Hfifo.
  - unfold fifo in *.
    change (step s (Start host port cid)) with (fst (start_spawn host port cid s)).
    rewrite inflight_start. exact Hfifo.
  - unfold fifo, queued in *. simpl. rewrite fmap_app, length_app, !app_assoc.
    simpl. rewrite Nat.add_1_r, seq_S. simpl. f_equal.
    rewrite <- app_assoc. exact Hfifo.
  - simpl in *. rewrite threads_length_sched in Hlen. by apply fifo_sched.
Qed.

Lemma fifo_reachable i s : reachable i s → length (threads s) ≤ 1 → fifo s.
Proof.
  induction 1 as [|s ev Hs IH]; intros Hlen; [done|].
  apply fifo_step; [done|]. apply IH.
  pose proof (threads_length_step s ev). lia.
Qed.

End Fifo.

(** ** The claims *)

(** A thread that has ended takes no further step. *)
Lemma sched_n_dead {IB} `{!IBApi IB} (s : @Sys IB) w k n :
  threads s !! w = Some k → alive (w_pc k) = false → sched_n w n s = s.
Proof.
  intros Hk Hdead. induction n as [|n IH]; [done|].
  unfold sched_n in *. simpl. rewrite IH. by eapply sched_dead.
Qed.

(** Nothing clears the flags of the service. *)
Lemma connected_sched {IB} `{!IBApi IB} (s : @Sys IB) w :
  _connected (svc s) = true → _connected (svc (sched w s)) = true.
Proof. intros Hc. sched_paths; done. Qed.

Lemma flags_step {IB} `{!IBApi IB} (s : @Sys IB) ev :
  (_running (svc s) = true → _running (svc (step s ev)) = true) ∧
  (_connected (svc s) = true → _connected (svc (step s ev)) = true).
Proof.
  destruct ev as [host port cid|func args kwargs|w]; simpl; [done|done|].
  split; [by rewrite running_sched | apply connected_sched].
Qed.

Lemma flags_run {IB} `{!IBApi IB} (s : @Sys IB) evs :
  (_running (svc s) = true → _running (svc (run s evs)) = true) ∧
  (_connected (svc s) = true → _connected (svc (run s evs)) = true).
Proof.
  revert s. induction evs as [|ev evs IH]; intros s; [done|].
  simpl. destruct (flags_step s ev) as [H1 H2], (IH (step s ev)) as [H3 H4].
  split; eauto.
Qed.

(** C1, as the code has it: the handler of the item names [Exception].
    When the operation of an item the worker took raises an instance [e] of
    [Exception], the handler rejects the item's future with [e] through
    [set_exception]; the thread is not ended but back at the head of its
    loop with [_running] set: it takes the next item of the queue, and an
    operation submitted afterwards is taken, run and its future settled
    with its value. *)
Theorem C1_operation_exception_rejects_its_future {IB} `{!IBApi IB}
    i (s : @Sys IB) w k it i1 e :
  reachable i s → threads s !! w = Some k → w_pc k = Executing it →
  wi_func it (wi_args it) (wi_kwargs it) (ib (svc s)) = (i1, Exc e) →
  is_Exception e = true →
  let s1 := sched w s in
  futures s1 !! wi_future it = Some (Rejected e) ∧
  pc_of s1 w = Some Looping ∧
  _running (svc s1) = true ∧
  (∀ next q, _task_queue (svc s1) = next :: q →
     pc_of (sched w s1) w = Some (Executing next)) ∧
  (∀ g args kwargs i2 v,
     _task_queue (svc s1) = [] → g args kwargs (ib (svc s1)) = (i2, Ok v) →
     let s2 := run s1 [Submit g args kwargs; Sched w; Sched w] in
     futures s2 !! length (futures s1) = Some (Fulfilled v) ∧
     pc_of s2 w = Some Looping ∧
     executed s2 = executed s1 ++ [length (futures s1)]).
Proof.
  intros Hreach Hk Hpc Hf He s1.
  pose proof (executing_pending _ _ _ _ _ Hreach Hk Hpc) as Hp.
  pose proof (running_reachable _ _ _ _ Hreach Hk) as Hrun.
  assert (s1 = set_threads (alter (with_pc Looping) w)
                 (set_futures (fun l => <[wi_future it := Rejected e]> l)
                    (add_log (ObsFunc w (wi_future it)) (set_svc (with_ib i1) s))))
    as Hs1 by (by eapply sched_run_exc).
  assert (threads s1 !! w = Some (with_pc Looping k)) as Hk1.
  { rewrite Hs1. simpl. by rewrite list_lookup_alter_eq, Hk. }
  assert (_running (svc s1) = true) as Hrun1 by (by rewrite Hs1).
  split_and!.
  - rewrite Hs1. simpl. apply list_lookup_insert_eq. by eapply lookup_lt_Some.
  - rewrite Hs1. by erewrite pc_of_alter.
  - done.
  - intros next q Hq. erewrite sched_get by done. by erewrite pc_of_alter.
  - intros g args kwargs i2 v Hq Hg.
    destruct (submit_served s1 w _ g args kwargs i2 (Ok v) Hk1 eq_refl Hrun1 Hq Hg eq_refl)
      as (? & ? & ? & _).
    done.
Qed.

Lemma C1_witness :
  reachable mock0 taken_boom ∧
  let s1 := sched 0 taken_boom in
  futures s1 !! 0 = Some (Rejected (ValueError "boom")) ∧
  pc_of s1 0 = Some Looping ∧
  _running (svc s1) = true ∧
  (∀ next q, _task_queue (svc s1) = next :: q →
     pc_of (sched 0 s1) 0 = Some (Executing next)) ∧
  (∀ g args kwargs i2 v,
     _task_queue (svc s1) = [] → g args kwargs (ib (svc s1)) = (i2, Ok v) →
     let s2 := run s1 [Submit g args kwargs; Sched 0; Sched 0] in
     futures s2 !! length (futures s1) = Some (Fulfilled v) ∧
     pc_of s2 0 = Some Looping ∧
     executed s2 = executed s1 ++ [length (futures s1)]).
Proof.
  assert (reachable mock0 taken_boom) as Hr by (apply reachable_run; constructor).
  split; [exact Hr|].
  exact (C1_operation_exception_rejects_its_future mock0 taken_boom 0 _ _ _ _
           Hr eq_refl eq_refl eq_refl eq_refl).
Defined.

(** C1 as stated (whatever exception the operation raises, its future is
    rejected with it and the loop goes on) fails for the exceptions outside
    [Exception]: the operation raises [SystemExit], the future is left
    pending, the worker thread has ended with the exception, and an
    operation submitted afterwards is never run however often the thread is
    scheduled. *)
Lemma C1_counterexample :
  pc_of taken_quit 0
    = Some (Executing {| wi_func := quit; wi_args := []; wi_kwargs := [];
                         wi_future := 0 |}) ∧
  snd (quit [] [] (ib (svc taken_quit))) = Exc SystemExit ∧
  futures (sched 0 taken_quit) !! 0 = Some Pending ∧
  pc_of (sched 0 taken_quit) 0 = Some (Crashed SystemExit) ∧
  ∀ n, futures (sched_n 0 n (step (sched 0 taken_quit) (Submit echo [PyInt 7] [])))
         !! 1 = Some Pending.
Proof.
  split_and!; try done.
  intros n. erewrite sched_n_dead; done.
Qed.

(** C2: with the single worker thread (one call of [start]), the futures
    being numbered in the order of the calls of [execute]: the operations
    called so far, then the item the worker has taken, then the items
    waiting are exactly the submitted ones in the order of submission.  So
    the j-th item taken and run is the j-th submitted, at most one item is
    taken and not yet done at any time, and no item is taken twice. *)
Theorem C2_single_worker_runs_items_in_submission_order {IB} `{!IBApi IB}
    i (s : @Sys IB) :
  reachable i s → length (threads s) ≤ 1 →
  executed s ++ inflight s ++ queued s = seq 0 (length (futures s)) ∧
  (∀ j f, (executed s ++ inflight s) !! j = Some f → f = j) ∧
  length (inflight s) ≤ 1 ∧
  NoDup (executed s ++ inflight s) ∧
  (∀ func args kwargs,
     snd (execute_put func args kwargs s) = Ok (length (futures s))).
Proof.
  intros Hreach Hlen. pose proof (fifo_reachable _ _ Hreach Hlen) as Hfifo.
  unfold fifo in Hfifo. split_and!.
  - done.
  - intros j f Hj.
    assert (seq 0 (length (futures s)) !! j = Some f) as Hseq.
    { rewrite <- Hfifo, app_assoc. by apply lookup_app_l_Some. }
    apply lookup_seq in Hseq. lia.
  - unfold inflight. destruct (threads s) as [|k [|]]; simpl in *; [lia| |lia].
    rewrite app_nil_r. unfold inflight_of. destruct (w_pc k); simpl; lia.
  - pose proof (NoDup_seq 0 (length (futures s))) as Hnd.
    rewrite <- Hfifo, app_assoc in Hnd. by apply NoDup_app in Hnd as [? _].
  - done.
Qed.

Lemma C2_witness :
  reachable mock0 three_submitted ∧
  length (threads three_submitted) ≤ 1 ∧
  executed three_submitted = [0] ∧ inflight three_submitted = [1] ∧
  queued three_submitted = [2] ∧
  (executed three_submitted ++ inflight three_submitted ++ queued three_submitted
     = seq 0 (length (futures three_submitted)) ∧
   (∀ j f, (executed three_submitted ++ inflight three_submitted) !! j = Some f → f = j) ∧
   length (inflight three_submitted) ≤ 1 ∧
   NoDup (executed three_submitted ++ inflight three_submitted) ∧
   (∀ func args kwargs,
      snd (execute_put func args kwargs three_submitted)
        = Ok (length (futures three_submitted)))).
Proof.
  assert (reachable mock0 three_submitted) as Hr by (apply reachable_run; constructor).
  assert (length (threads three_submitted) ≤ 1) as Hl by (vm_compute; lia).
  split; [exact Hr|]. split; [exact Hl|].
  split; [reflexivity|]. split; [reflexivity|]. split; [reflexivity|].
  exact (C2_single_worker_runs_items_in_submission_order mock0 three_submitted Hr Hl).
Defined.

(** While thread [w] finds the queue empty with [_connected] set, each of
    its steps leaves the queue and the flags as they are and adds one call
    of [ib.sleep]. *)
Lemma pump_iter {IB} `{!IBApi IB} (s : @Sys IB) w n :
  _running (svc s) = true → _task_queue (svc s) = [] → _connected (svc s) = true →
  (∀ j, j < n → pc_of (sched_n w j s) w = Some Looping) →
  _running (svc (sched_n w n s)) = true ∧
  _task_queue (svc (sched_n w n s)) = [] ∧
  _connected (svc (sched_n w n s)) = true ∧
  pumps (sched_n w n s) = pumps s ++ replicate n (w, 10%N).
Proof.
  intros Hrun Hq Hc. induction n as [|n IH]; intros Hpc.
  - simpl. by rewrite app_nil_r.
  - destruct IH as (Hrun' & Hq' & Hc' & Hp'); [intros j Hj; apply Hpc; lia|].
    specialize (Hpc n (Nat.lt_succ_diag_r n)).
    unfold pc_of in Hpc. apply fmap_Some in Hpc as (k & Hk & Hkpc).
    rewrite replicate_S_end, app_assoc, <- Hp'.
    unfold sched_n in *. cbn [Nat.iter nat_rect].
    destruct (ib_sleep 10 (ib (svc (Nat.iter n (sched w) s)))) as [i r] eqn:Hs.
    erewrite sched_empty_pump by done.
    unfold pumps. simpl. by rewrite omap_app.
Qed.

(** C3: when the worker's [get] times out on the empty queue and
    [_connected] is set, the worker calls [ib.sleep(0.01)] on the
    connection: one call, of 10 ms.  So as long as the worker keeps finding
    the queue empty, every time-out of [get] (100 ms) is followed by one
    call of the pump: [n] time-outs in a row make [n] calls. *)
Theorem C3_empty_pop_calls_the_pump {IB} `{!IBApi IB} (s : @Sys IB) w k :
  threads s !! w = Some k → w_pc k = Looping → _running (svc s) = true →
  _task_queue (svc s) = [] → _connected (svc s) = true →
  log (sched w s) = log s ++ [ObsSleep w 10] ∧
  ib (svc (sched w s)) = fst (ib_sleep 10 (ib (svc s))) ∧
  ∀ n, (∀ j, j < n → pc_of (sched_n w j s) w = Some Looping) →
       pumps (sched_n w n s) = pumps s ++ replicate n (w, 10%N).
Proof.
  intros Hk Hpc Hrun Hq Hc.
  destruct (ib_sleep 10 (ib (svc s))) as [i r] eqn:Hs.
  erewrite sched_empty_pump by done. split_and!; [done..|].
  intros n Hn. by apply pump_iter.
Qed.

Lemma C3_witness :
  log (sched 0 idle) = log idle ++ [ObsSleep 0 10] ∧
  ib (svc (sched 0 idle)) = fst (ib_sleep 10 (ib (svc idle))) ∧
  pumps (sched_n 0 8 idle) = pumps idle ++ replicate 8 (0, 10%N).
Proof.
  destruct (C3_empty_pop_calls_the_pump idle 0 _
              eq_refl eq_refl eq_refl eq_refl eq_refl) as (H1 & H2 & H3).
  split; [exact H1|]. split; [exact H2|].
  apply H3. intros j Hj.
  do 8 (destruct j as [|j]; [reflexivity|]). lia.
Defined.

Example C3_eight_pumps : pumps (sched_n 0 8 idle) = replicate 8 (0, 10%N).
Proof. reflexivity. Qed.

(** C4, as the code has it: [start] blocks its caller, not the worker, on
    [connect_done] for at most 30 seconds: the wait only reads the event,
    it returns as soon as the event is set and in any case once 30 seconds
    have passed.  [start] then returns [None] in both cases, no failure is
    returned or raised.  The worker thread is not touched: when its
    [ib.connect] returns later, it sets [_connected] and enters its loop. *)
Theorem C4_start_waits_30s_and_returns_None {IB} `{!IBApi IB}
    (s : @Sys IB) w k waited :
  threads s !! w = Some k →
  fst (start_wait w waited s) = s ∧
  (connect_done k = false → (waited < 30000)%N →
     snd (start_wait w waited s) = None) ∧
  (connect_done k = true ∨ (30000 ≤ waited)%N →
     snd (start_wait w waited s) = Some (Ok PyNone)) ∧
  (w_pc k = Connecting → ∀ i v,
     ib_connect (w_host k) (w_port k) (w_client_id k) (ib (svc s)) = (i, Ok v) →
     let s1 := sched w (fst (start_wait w waited s)) in
     pc_of s1 w = Some Looping ∧ _connected (svc s1) = true).
Proof.
  intros Hk. unfold start_wait, Event_wait. rewrite Hk. split_and!.
  - by repeat case_match.
  - intros -> Hlt. apply N.leb_gt in Hlt. by rewrite Hlt.
  - intros [-> | Hle]; [done|]. apply N.leb_le in Hle. rewrite Hle.
    by destruct (connect_done k).
  - intros Hpc i v Hc.
    assert (∀ x : Sys * option (Result PyVal), x.1 = s → sched w x.1 = sched w s)
      as Hsame by (by intros x ->).
    rewrite Hsame by (by repeat case_match). clear Hsame.
    erewrite sched_connect_ok by done. split; [|done].
    erewrite pc_of_alter; [done|]. simpl. by rewrite list_lookup_alter_eq, Hk.
Qed.

Lemma C4_witness :
  fst (start_wait 0 30000 starting) = starting ∧
  (false = false → (30000 < 30000)%N → snd (start_wait 0 30000 starting) = None) ∧
  (false = true ∨ (30000 ≤ 30000)%N →
     snd (start_wait 0 30000 starting) = Some (Ok PyNone)) ∧
  (@Connecting MockIB = Connecting → ∀ i v,
     ib_connect "127.0.0.1" 7497 1 (ib (svc starting)) = (i, Ok v) →
     let s1 := sched 0 (fst (start_wait 0 30000 starting)) in
     pc_of s1 0 = Some Looping ∧ _connected (svc s1) = true).
Proof.
  exact (C4_start_waits_30s_and_returns_None starting 0 _ 30000%N eq_refl).
Defined.

(** C4 as stated (a Timeout failure is returned when the 30 seconds pass
    before the worker signals) fails: the event of the worker is not set,
    the 30 seconds have passed, and [start] returns [None]. *)
Lemma C4_counterexample :
  (connect_done <$> threads dialling !! 0) = Some false ∧
  snd (start_wait 0 30000 dialling) = Some (Ok PyNone) ∧
  ¬ ∃ e, snd (start_wait 0 30000 dialling) = Some (Exc e).
Proof. split_and!; [done | done | by intros [e ?]]. Qed.

(** C5, as the code has it: an [Exception] raised by [ib.connect] on the
    worker thread is caught there and appended to [connect_error], the list
    of that call of [start]; the thread is not ended and goes on to its
    loop.  Whatever [ib.connect] did, [connect_done] is set, once and never
    again.  The service records no failure: [_connected] keeps its value,
    [_running] stays set, and [start] returns [None]. *)
Theorem C5_connect_exception_is_captured {IB} `{!IBApi IB}
    i0 (s : @Sys IB) w k i r :
  reachable i0 s → threads s !! w = Some k → w_pc k = Connecting →
  ib_connect (w_host k) (w_port k) (w_client_id k) (ib (svc s)) = (i, r) →
  let s1 := sched w s in
  sets_of w s = 0 ∧
  (connect_done <$> threads s1 !! w) = Some true ∧
  (∀ evs, sets_of w (run s1 evs) = 1) ∧
  (∀ waited, snd (start_wait w waited s1) = Some (Ok PyNone)) ∧
  (∀ e, r = Exc e → is_Exception e = true →
     pc_of s1 w = Some Looping ∧
     (connect_error <$> threads s1 !! w) = Some (connect_error k ++ [e]) ∧
     _connected (svc s1) = _connected (svc s) ∧
     _running (svc s1) = true ∧
     _thread (svc s1) = _thread (svc s)).
Proof.
  intros Hreach Hk Hpc Hc s1.
  assert (past_connect s w = false) as Hnot.
  { unfold past_connect, pc_of. rewrite Hk. simpl. by rewrite Hpc. }
  assert (past_connect s1 w = true) as Hpast by (by eapply past_connect_sched).
  assert (reachable i0 s1) as Hreach1 by (apply (reach_step i0 s (Sched w) Hreach)).
  assert ((connect_done <$> threads s1 !! w) = Some true) as Hdone.
  { subst s1. destruct r as [v|e].
    - erewrite sched_connect_ok by done. simpl.
      by rewrite !list_lookup_alter_eq, Hk.
    - erewrite sched_connect_exc by done. simpl.
      destruct (is_Exception e); simpl; by rewrite !list_lookup_alter_eq, Hk. }
  split_and!.
  - by rewrite (set_once_reachable i0 s Hreach w), Hnot.
  - done.
  - intros evs. by eapply set_exactly_once.
  - intros waited. unfold start_wait, Event_wait.
    destruct (threads s1 !! w) as [k1|]; [|done].
    simpl in Hdone. injection Hdone as ->. done.
  - intros e -> He. subst s1. erewrite sched_connect_exc by done.
    rewrite He. simpl. rewrite !list_lookup_alter_eq, Hk. split_and!; try done.
    + unfold pc_of. simpl. by rewrite !list_lookup_alter_eq, Hk.
    + eapply running_reachable; eauto.
Qed.

Lemma C5_witness :
  reachable mock0 dialling ∧
  let s1 := sched 0 dialling in
  sets_of 0 dialling = 0 ∧
  (connect_done <$> threads s1 !! 0) = Some true ∧
  (∀ evs, sets_of 0 (run s1 evs) = 1) ∧
  (∀ waited, snd (start_wait 0 waited s1) = Some (Ok PyNone)) ∧
  (∀ e, @Exc PyVal TimeoutError = Exc e → is_Exception e = true →
     pc_of s1 0 = Some Looping ∧
     (connect_error <$> threads s1 !! 0) = Some ([] ++ [e]) ∧
     _connected (svc s1) = _connected (svc dialling) ∧
     _running (svc s1) = true ∧
     _thread (svc s1) = _thread (svc dialling)).
Proof.
  assert (reachable mock0 dialling) as Hr by (apply reachable_run; constructor).
  split; [exact Hr|].
  exact (C5_connect_exception_is_captured mock0 dialling 0 _ _ _
           Hr eq_refl eq_refl eq_refl).
Defined.

(** C5 as stated (the captured error reaches the caller of [start] as a
    state [Failed(reason)]) fails: two handshakes that fail for different
    reasons leave the same service and give the same return of [start], so
    nothing the caller can read tells the reason. *)
Lemma C5_counterexample :
  (connect_error <$> threads refused !! 0) = Some [ConnectionRefusedError] ∧
  (connect_error <$> threads unanswered !! 0) = Some [TimeoutError] ∧
  svc refused = svc unanswered ∧
  snd (start_wait 0 0 refused) = Some (Ok PyNone) ∧
  snd (start_wait 0 0 unanswered) = Some (Ok PyNone) ∧
  ¬ ∃ reason : @IBKRService MockIB * option (Result PyVal) → PyExc,
      reason (svc refused, snd (start_wait 0 0 refused)) = ConnectionRefusedError ∧
      reason (svc unanswered, snd (start_wait 0 0 unanswered)) = TimeoutError.
Proof.
  split_and!; try reflexivity.
  intros (reason & H1 & H2).
  change (svc unanswered, (start_wait 0 0 unanswered).2)
    with (svc refused, (start_wait 0 0 refused).2) in H2.
  congruence.
Qed.

(** A thread that has ended takes no further step. *)
(** C6, as the code has it: the service has no count of pump failures
    and no state Failed.  When the pump call [ib.sleep(0.01)] in the handler
    of [queue.Empty] raises, the call was made once and no state of the
    life cycle changes with it: [_running] and [_connected] keep their
    values then and whatever happens afterwards, [_thread] is as it was,
    the queue and the futures are untouched. *)
Theorem C6_pump_exception_changes_no_lifecycle_state {IB} `{!IBApi IB}
    (s : @Sys IB) w k i e :
  threads s !! w = Some k → w_pc k = Looping → _running (svc s) = true →
  _task_queue (svc s) = [] → _connected (svc s) = true →
  ib_sleep 10 (ib (svc s)) = (i, Exc e) →
  let s1 := sched w s in
  log s1 = log s ++ [ObsSleep w 10] ∧
  _thread (svc s1) = _thread (svc s) ∧
  _task_queue (svc s1) = [] ∧ futures s1 = futures s ∧
  ∀ evs, _running (svc (run s1 evs)) = true ∧ _connected (svc (run s1 evs)) = true.
Proof.
  intros Hk Hpc Hrun Hq Hc Hs s1. subst s1.
  erewrite sched_empty_pump by done. split_and!; try done.
  intros evs. set (s1 := set_threads _ _).
  destruct (flags_run s1 evs) as [H1 H2]. split; [by apply H1|by apply H2].
Qed.

Lemma C6_witness :
  let s1 := sched 0 link_down in
  log s1 = log link_down ++ [ObsSleep 0 10] ∧
  _thread (svc s1) = _thread (svc link_down) ∧
  _task_queue (svc s1) = [] ∧ futures s1 = futures link_down ∧
  ∀ evs, _running (svc (run s1 evs)) = true ∧ _connected (svc (run s1 evs)) = true.
Proof.
  exact (C6_pump_exception_changes_no_lifecycle_state link_down 0 _ _ _
           eq_refl eq_refl eq_refl eq_refl eq_refl eq_refl).
Defined.

(** C6 as stated (the exception of the pump is swallowed, the loop goes on,
    and repeated failures move the state toward Failed) fails: with the
    link closed [ib.sleep] raises, the worker is not back in its loop, an
    operation submitted afterwards is never run however often the thread is
    scheduled, and the flags of the service are what they were. *)
Lemma C6_counterexample :
  pc_of link_down 0 = Some Looping ∧
  _connected (svc link_down) = true ∧
  snd (ib_sleep 10 (ib (svc link_down))) = Exc (ConnectionError "Not connected") ∧
  pc_of (sched 0 link_down) 0 ≠ Some Looping ∧
  (∀ n, futures (sched_n 0 n (step (sched 0 link_down) (Submit echo [PyInt 7] [])))
          !! 1 = Some Pending) ∧
  _running (svc (sched 0 link_down)) = _running (svc link_down) ∧
  _connected (svc (sched 0 link_down)) = _connected (svc link_down).
Proof.
  split_and!; try done.
  intros n. erewrite sched_n_dead; done.
Qed.

(** The worker takes the oldest item and runs it: two steps of the thread
    from the head of its loop settle the item's future with what its
    operation did. *)
Lemma take_and_run {IB} `{!IBApi IB}
    i0 (s : @Sys IB) w k it q i r :
  reachable i0 s → threads s !! w = Some k → w_pc k = Looping →
  _task_queue (svc s) = it :: q →
  wi_func it (wi_args it) (wi_kwargs it) (ib (svc s)) = (i, r) →
  caught r = true →
  let s2 := sched w (sched w s) in
  pc_of (sched w s) w = Some (Executing it) ∧
  futures s2 !! wi_future it = Some (settle r) ∧
  executed s2 = executed s ++ [wi_future it] ∧
  pc_of s2 w = Some Looping ∧
  _task_queue (svc s2) = q ∧
  _connected (svc s2) = _connected (svc s).
Proof.
  intros Hreach Hk Hpc Hq Hf Hc s2. subst s2.
  pose proof (running_reachable _ _ _ _ Hreach Hk) as Hrun.
  assert (futures s !! wi_future it = Some Pending) as Hp.
  { apply wf_reachable in Hreach as (_ & Hp & _). apply Hp, elem_of_app. right.
    unfold queued. rewrite Hq. by left. }
  rewrite (sched_get s w k it q) by done.
  set (s1 := set_threads _ _).
  assert (threads s1 !! w = Some (with_pc (Executing it) k)) as Hk1.
  { simpl. by rewrite list_lookup_alter_eq, Hk. }
  rewrite (sched_run s1 w _ it i r Hk1 eq_refl Hp Hf Hc).
  split_and!.
  - unfold pc_of. by rewrite Hk1.
  - simpl. apply list_lookup_insert_eq. by eapply lookup_lt_Some.
  - unfold executed. simpl. by rewrite omap_app.
  - by erewrite pc_of_alter.
  - done.
  - done.
Qed.

(** C7, as the code has it: the worker does not look at the state of the
    connection before it runs an item, and there is no Disconnected error.
    Whatever [_connected] is, the worker takes the oldest item of the
    queue, calls its operation, and settles its future with what the
    operation did (its value, or the [Exception] it raised); the thread is
    then back at the head of its loop. *)
Theorem C7_items_run_whatever_the_connection {IB} `{!IBApi IB}
    i0 (s : @Sys IB) w k it q i r :
  reachable i0 s → threads s !! w = Some k → w_pc k = Looping →
  _task_queue (svc s) = it :: q →
  wi_func it (wi_args it) (wi_kwargs it) (ib (svc s)) = (i, r) →
  caught r = true →
  let s2 := sched w (sched w s) in
  pc_of (sched w s) w = Some (Executing it) ∧
  futures s2 !! wi_future it = Some (settle r) ∧
  executed s2 = executed s ++ [wi_future it] ∧
  pc_of s2 w = Some Looping ∧
  _task_queue (svc s2) = q ∧
  _connected (svc s2) = _connected (svc s).
Proof. apply take_and_run. Qed.

Lemma C7_witness :
  reachable mock0 (run refused [Submit echo [PyInt 7] []]) ∧
  let s := run refused [Submit echo [PyInt 7] []] in
  let s2 := sched 0 (sched 0 s) in
  _connected (svc s) = false ∧
  futures s2 !! 0 = Some (Fulfilled (PyInt 7)) ∧
  executed s2 = executed s ++ [0] ∧
  pc_of s2 0 = Some Looping ∧
  _task_queue (svc s2) = [] ∧
  _connected (svc s2) = _connected (svc s).
Proof.
  assert (reachable mock0 (run refused [Submit echo [PyInt 7] []])) as Hr.
  { apply reachable_run. unfold refused. apply reachable_run. constructor. }
  split; [exact Hr|]. split; [reflexivity|].
  exact (proj2 (C7_items_run_whatever_the_connection mock0 _ 0 _ _ _ _ _
                  Hr eq_refl eq_refl eq_refl eq_refl eq_refl)).
Defined.

(** C7 as stated (the items queued after the connection is known to be
    down are rejected with a Disconnected error, not run) fails: the
    handshake was refused, [_connected] is not set and the link is down,
    yet the operation submitted then is called and its future holds its
    value. *)
Lemma C7_counterexample :
  _connected (svc refused) = false ∧ up (ib (svc refused)) = false ∧
  executed served_unconnected = [0] ∧
  futures served_unconnected !! 0 = Some (Fulfilled (PyInt 7)) ∧
  ¬ ∃ e, futures served_unconnected !! 0 = Some (Rejected e).
Proof. split_and!; try done. by intros [e ?]. Qed.

Lemma threads_length_run {IB} `{!IBApi IB} (s : @Sys IB) evs :
  length (threads (run s evs)) = length (threads s) + starts evs.
Proof.
  revert s. induction evs as [|ev evs IH]; intros s.
  - unfold starts. simpl. lia.
  - change (run s (ev :: evs)) with (run (step s ev) evs). rewrite IH.
    assert (length (threads (step s ev))
            = length (threads s) + (if is_Start ev then 1 else 0)) as ->.
    { destruct ev as [host port cid|func args kwargs|w]; simpl.
      - rewrite length_app. simpl. lia.
      - lia.
      - rewrite threads_length_sched. lia. }
    unfold starts. simpl. destruct (is_Start ev); simpl; lia.
Qed.

(** C8, as the code has it: [start] does not look at [_thread] or
    [_running] before it creates a thread.  Every call sets [_running],
    starts a new worker thread with an event of its own, and puts that
    thread in [_thread]; the threads started earlier are left as they are.
    So there are as many worker threads as calls of [start]. *)
Theorem C8_every_start_spawns_a_worker {IB} `{!IBApi IB} i (evs : list (@Event IB)) :
  length (threads (run (init i) evs)) = starts evs ∧
  ∀ (s : @Sys IB) host port client_id,
    let s1 := step s (Start host port client_id) in
    threads s1 = threads s ++ [new_worker host port client_id] ∧
    _thread (svc s1) = Some (length (threads s)) ∧
    _running (svc s1) = true ∧
    ∀ w k, threads s !! w = Some k → threads s1 !! w = Some k.
Proof.
  split; [by rewrite threads_length_run|].
  intros s host port cid s1. split_and!; try done.
  intros w k Hk. simpl. by apply lookup_app_l_Some.
Qed.

Lemma C8_witness :
  length (threads (run (init mock0) [gateway; Sched 0; gateway])) = 2 ∧
  ∀ (s : @Sys MockIB) host port client_id,
    let s1 := step s (Start host port client_id) in
    threads s1 = threads s ++ [new_worker host port client_id] ∧
    _thread (svc s1) = Some (length (threads s)) ∧
    _running (svc s1) = true ∧
    ∀ w k, threads s !! w = Some k → threads s1 !! w = Some k.
Proof.
  exact (C8_every_start_spawns_a_worker mock0 [gateway; Sched 0; gateway]).
Defined.

(** C8 as stated (a second call of [start] does not create a second
    worker) fails: with a worker connected and in its loop, a second call
    of [start] adds a thread, and after its handshake two threads are in
    the loop on the same connection and queue. *)
Lemma C8_counterexample :
  length (threads idle) = 1 ∧ pc_of idle 0 = Some Looping ∧
  length (threads (step idle gateway)) = 2 ∧
  pc_of (run idle [gateway; Sched 1]) 0 = Some Looping ∧
  pc_of (run idle [gateway; Sched 1]) 1 = Some Looping.
Proof. by split_and!. Qed.

(** ** The awaits: facts about [act] *)

Section Awaiting.

Context {IB : Type} `{api : !IBApi IB}.
Implicit Types (w : @World IB) (s : @Sys IB) (a : nat) (x : Await) (f : FutId).

Lemma sys_act w c :
  sys (act w c) = match c with Act ev => step (sys w) ev | _ => sys w end.
Proof. destruct c; simpl; [done | by case_decide | done]. Qed.

(** The service goes its way whatever the awaits do. *)
Lemma sys_arun w acts : sys (arun w acts) = run (sys w) (events acts).
Proof.
  revert w. induction acts as [|c acts IH]; intros w; [done|].
  change (arun w (c :: acts)) with (arun (act w c) acts). rewrite IH, sys_act.
  by destruct c.
Qed.

Lemma poll_not_blocked s t x : is_Blocked x = false → poll s t x = x.
Proof. unfold poll, is_Blocked. by destruct (aw_state x). Qed.

(** A call entered at [t0] stays blocked while its future is pending and
    its 30 seconds have not passed; it ends with [TimeoutError] when they
    have. *)
Lemma poll_pending s t f t0 :
  futures s !! f = Some Pending →
  poll s t {| aw_future := f; aw_state := Blocked t0 |} =
    {| aw_future := f;
       aw_state := if (t <? t0 + 30000)%N then Blocked t0
                   else Returned (Exc TimeoutError) |}.
Proof.
  intros Hf. unfold poll, Future_result. simpl. rewrite Hf.
  destruct (N.leb_spec (t0 + 30000) t), (N.ltb_spec t (t0 + 30000)); (done || lia).
Qed.

Lemma poll_settled s t f t0 st :
  futures s !! f = Some st → st ≠ Pending →
  poll s t {| aw_future := f; aw_state := Blocked t0 |} =
    {| aw_future := f;
       aw_state := wrap_future (match st with
                                | Fulfilled v => Ok v
                                | Rejected e => Exc e
                                | Pending => Exc TimeoutError
                                end) |}.
Proof.
  intros Hf Hst. unfold poll, Future_result. simpl. rewrite Hf. by destruct st.
Qed.

Lemma take_oldest_other t l a x :
  l !! a = Some x → aw_state x ≠ Waiting → take_oldest t l !! a = Some x.
Proof.
  revert a. induction l as [|y l IH]; intros a Hl Hx; [done|].
  destruct a as [|a]; simpl in *.
  - simplify_eq. by destruct (aw_state x).
  - destruct (aw_state y); simpl; auto.
Qed.

Lemma take_oldest_first t l a x :
  l !! a = Some x → aw_state x = Waiting →
  (∀ b y, b < a → l !! b = Some y → aw_state y ≠ Waiting) →
  take_oldest t l !! a = Some {| aw_future := aw_future x; aw_state := Blocked t |}.
Proof.
  revert a. induction l as [|y l IH]; intros a Hl Hx Hbefore; [done|].
  destruct a as [|a]; simpl in *.
  - simplify_eq. by rewrite Hx.
  - assert (aw_state y ≠ Waiting) as Hy by (apply (Hbefore 0 y); [lia|done]).
    destruct (aw_state y) eqn:E; try done; simpl; apply IH; try done;
      intros b z Hb Hz; apply (Hbefore (S b) z); (lia || done).
Qed.

Lemma take_oldest_later t l a x :
  l !! a = Some x →
  (∃ b y, b < a ∧ l !! b = Some y ∧ aw_state y = Waiting) →
  take_oldest t l !! a = Some x.
Proof.
  revert a. induction l as [|y l IH]; intros a Hl (b & z & Hb & Hz & Hw); [done|].
  destruct a as [|a]; [lia|]. simpl in *.
  destruct (aw_state y) eqn:E; try done; simpl;
    (destruct b as [|b]; simpl in *; [simplify_eq; congruence|]);
    apply IH; try done; exists b, z; split_and!; (lia || done).
Qed.

Lemma until_deadline_le t d l : (until_deadline t d l ≤ d)%N.
Proof.
  induction l as [|y l IH]; simpl; [lia|].
  destruct (aw_state y); lia.
Qed.

Lemma until_deadline_blocked t d l a x t0 :
  l !! a = Some x → aw_state x = Blocked t0 →
  (until_deadline t d l ≤ t0 + 30000 - t)%N.
Proof.
  revert a. induction l as [|y l IH]; intros a Hl Hx; [done|].
  destruct a as [|a]; simpl in *.
  - simplify_eq. rewrite Hx. lia.
  - specialize (IH a Hl Hx). destruct (aw_state y); lia.
Qed.

(** An await that has ended stays as it ended. *)
Lemma ended_act w c a x :
  awaits w !! a = Some x → aw_state x ≠ Waiting → is_Blocked x = false →
  awaits (act w c) !! a = Some x.
Proof.
  intros Ha Hw Hb. destruct c as [ev| |d]; simpl.
  - rewrite list_lookup_fmap, lookup_app_l by (by eapply lookup_lt_Some).
    rewrite Ha. simpl. by rewrite poll_not_blocked.
  - case_decide; [|done]. simpl.
    rewrite list_lookup_fmap, (take_oldest_other _ _ _ x) by done.
    simpl. by rewrite poll_not_blocked.
  - rewrite list_lookup_fmap, Ha. simpl. by rewrite poll_not_blocked.
Qed.

Lemma ended_arun w acts a x :
  awaits w !! a = Some x → aw_state x ≠ Waiting → is_Blocked x = false →
  awaits (arun w acts) !! a = Some x.
Proof.
  revert w. induction acts as [|c acts IH]; intros w Ha Hw Hb; [done|].
  change (arun w (c :: acts)) with (arun (act w c) acts).
  apply IH; [by apply ended_act | done | done].
Qed.

(** Time passes for a call that was entered. *)
Lemma tick_blocked w a f t0 d :
  awaits w !! a = Some {| aw_future := f; aw_state := Blocked t0 |} →
  futures (sys w) !! f = Some Pending → (clock w ≤ t0 + 30000)%N →
  let w1 := act w (Tick d) in
  sys w1 = sys w ∧ (clock w ≤ clock w1 ≤ t0 + 30000)%N ∧
  (clock w1 ≤ clock w + d)%N ∧
  awaits w1 !! a =
    Some {| aw_future := f;
            aw_state := if (clock w1 <? t0 + 30000)%N then Blocked t0
                        else Returned (Exc TimeoutError) |}.
Proof.
  intros Ha Hf Hc. simpl.
  pose proof (until_deadline_blocked (clock w) d _ _ _ _ Ha eq_refl) as H1.
  pose proof (until_deadline_le (clock w) d (awaits w)) as H2.
  split_and!; [done | lia | lia | lia |].
  rewrite list_lookup_fmap, Ha. simpl. by rewrite poll_pending.
Qed.

(** A call that waits for a thread of the pool is not ended by time. *)
Lemma tick_waiting w a f d :
  awaits w !! a = Some {| aw_future := f; aw_state := Waiting |} →
  awaits (act w (Tick d)) !! a = Some {| aw_future := f; aw_state := Waiting |}.
Proof. intros Ha. simpl. by rewrite list_lookup_fmap, Ha. Qed.

(** [execute]: the put, and the call handed to the executor. *)
Lemma act_submit w func args kwargs :
  let f := length (futures (sys w)) in
  let w1 := act w (Act (Submit func args kwargs)) in
  _task_queue (svc (sys w1)) =
    _task_queue (svc (sys w)) ++
      [{| wi_func := func; wi_args := args; wi_kwargs := kwargs; wi_future := f |}] ∧
  futures (sys w1) = futures (sys w) ++ [Pending] ∧
  clock w1 = clock w ∧
  awaits w1 !! length (awaits w) = Some {| aw_future := f; aw_state := Waiting |}.
Proof.
  simpl. split_and!; [done..|].
  rewrite list_lookup_fmap, lookup_app_r, Nat.sub_diag by done. done.
Qed.

(** A free thread of the pool enters the oldest waiting call; with no free
    thread nothing is taken. *)
Lemma act_take w a f :
  awaits w !! a = Some {| aw_future := f; aw_state := Waiting |} →
  (∀ b y, b < a → awaits w !! b = Some y → aw_state y ≠ Waiting) →
  futures (sys w) !! f = Some Pending →
  busy (awaits w) < max_workers w →
  awaits (act w Take) !! a = Some {| aw_future := f; aw_state := Blocked (clock w) |}.
Proof.
  intros Ha Hbefore Hf Hfree. simpl. rewrite decide_True by done. simpl.
  rewrite list_lookup_fmap, (take_oldest_first _ _ _ _ Ha eq_refl Hbefore). simpl.
  rewrite poll_pending by done.
  destruct (N.ltb_spec (clock w) (clock w + 30000)); [done|lia].
Qed.

Lemma act_take_full w : max_workers w ≤ busy (awaits w) → act w Take = w.
Proof. intros Hfull. simpl. rewrite decide_False by lia. done. Qed.

Lemma take_oldest_lookup t l a x :
  l !! a = Some x →
  take_oldest t l !! a = Some x ∨
  (aw_state x = Waiting ∧
   take_oldest t l !! a = Some {| aw_future := aw_future x; aw_state := Blocked t |}).
Proof.
  revert a. induction l as [|y l IH]; intros a Hl; [done|].
  destruct a as [|a]; simpl in *.
  - simplify_eq. destruct (aw_state x) eqn:E; auto.
  - destruct (aw_state y); simpl; auto.
Qed.

Lemma poll_unserved s t x :
  unserved (aw_state x) = true → futures s !! aw_future x = Some Pending →
  ∃ st, poll s t x = {| aw_future := aw_future x; aw_state := st |} ∧
        unserved st = true.
Proof.
  intros Hu Hf. destruct x as [f st]. simpl in *. destruct st as [|t0|r|]; try done.
  - by exists Waiting.
  - rewrite poll_pending by done. eexists. split; [done|]. by case_match.
  - by exists (Returned r).
Qed.

(** While its future is pending an await gets no result. *)
Lemma unserved_act w c a x :
  awaits w !! a = Some x → unserved (aw_state x) = true →
  futures (sys (act w c)) !! aw_future x = Some Pending →
  ∃ st, awaits (act w c) !! a = Some {| aw_future := aw_future x; aw_state := st |} ∧
        unserved st = true.
Proof.
  intros Ha Hu Hf. destruct c as [ev| |d]; simpl in *.
  - rewrite list_lookup_fmap, lookup_app_l by (by eapply lookup_lt_Some).
    rewrite Ha. simpl. destruct (poll_unserved (step (sys w) ev) (clock w) x Hu Hf)
      as (st & -> & Hst). eauto.
  - case_decide; simpl in *.
    + rewrite list_lookup_fmap.
      destruct (take_oldest_lookup (clock w) _ _ _ Ha) as [->|[Hw ->]]; simpl.
      * destruct (poll_unserved (sys w) (clock w) x Hu Hf) as (st & -> & Hst). eauto.
      * rewrite poll_pending by done. eexists. split; [done|]. by case_match.
    + exists (aw_state x). split; [|done]. rewrite Ha. by destruct x.
  - rewrite list_lookup_fmap, Ha. simpl.
    destruct (poll_unserved (sys w) (clock w + until_deadline (clock w) d (awaits w)) x Hu Hf)
      as (st & -> & Hst). eauto.
Qed.

Lemma unserved_arun w acts a x :
  awaits w !! a = Some x → unserved (aw_state x) = true →
  (∀ evs, futures (run (sys w) evs) !! aw_future x = Some Pending) →
  ∃ st, awaits (arun w acts) !! a = Some {| aw_future := aw_future x; aw_state := st |} ∧
        unserved st = true.
Proof.
  revert w x. induction acts as [|c acts IH]; intros w x Ha Hu Hf.
  - exists (aw_state x). split; [|done]. simpl. rewrite Ha. by destruct x.
  - change (arun w (c :: acts)) with (arun (act w c) acts).
    assert (∀ evs, futures (run (sys (act w c)) evs) !! aw_future x = Some Pending) as Hf'.
    { intros evs. rewrite sys_act. destruct c as [ev| |d]; [|done..].
      exact (Hf (ev :: evs)). }
    destruct (unserved_act w c a x Ha Hu (Hf' [])) as (st & Ha1 & Hst).
    destruct (IH (act w c) _ Ha1 Hst Hf') as (st' & Ha2 & Hst'). eauto.
Qed.






End Awaiting.

(** C9: a caller whose await of [execute] times out leaves the worker
    alone.  The call [future.result(30)] that a thread of the executor
    entered at [t0] ends with [TimeoutError] when the clock reaches
    [t0 + 30 s] with the future still pending.  The service is then exactly
    as it was (queue, futures, worker threads, connection), and whatever
    happens afterwards it does what it would have done without that await:
    the items of the other callers are served as before.  The item of the
    caller is still where it was: taken by the worker, or found at the head
    of the queue, its operation is called and its future settled, while the
    await that timed out stays timed out: the outcome is there, unread. *)
Theorem C9_caller_timeout_leaves_the_worker_alone {IB} `{!IBApi IB}
    i0 (w : @World IB) a f t0 d :
  reachable i0 (sys w) →
  awaits w !! a = Some {| aw_future := f; aw_state := Blocked t0 |} →
  futures (sys w) !! f = Some Pending →
  (clock w ≤ t0 + 30000 ≤ clock (act w (Tick d)))%N →
  let w1 := act w (Tick d) in
  let timed_out := {| aw_future := f; aw_state := Returned (Exc TimeoutError) |} in
  awaits w1 !! a = Some timed_out ∧
  sys w1 = sys w ∧
  (∀ acts, sys (arun w1 acts) = run (sys w) (events acts) ∧
           awaits (arun w1 acts) !! a = Some timed_out) ∧
  (∀ k kw it i r,
     threads (sys w) !! k = Some kw → w_pc kw = Executing it → wi_future it = f →
     wi_func it (wi_args it) (wi_kwargs it) (ib (svc (sys w))) = (i, r) →
     caught r = true →
     let w2 := act w1 (Act (Sched k)) in
     futures (sys w2) !! f = Some (settle r) ∧ awaits w2 !! a = Some timed_out) ∧
  (∀ k kw it q i r,
     threads (sys w) !! k = Some kw → w_pc kw = Looping →
     _task_queue (svc (sys w)) = it :: q → wi_future it = f →
     wi_func it (wi_args it) (wi_kwargs it) (ib (svc (sys w))) = (i, r) →
     caught r = true →
     let w2 := arun w1 [Act (Sched k); Act (Sched k)] in
     futures (sys w2) !! f = Some (settle r) ∧ _task_queue (svc (sys w2)) = q ∧
     awaits w2 !! a = Some timed_out).
Proof.
  intros Hreach Ha Hf [Hc Hd] w1 timed_out.
  destruct (tick_blocked w a f t0 d Ha Hf Hc) as (Hsys & _ & _ & Ha1).
  fold w1 in Hsys, Ha1.
  assert (awaits w1 !! a = Some timed_out) as Hout.
  { rewrite Ha1. destruct (N.ltb_spec (clock w1) (t0 + 30000)); [|done].
    subst w1. lia. }
  assert (∀ acts, awaits (arun w1 acts) !! a = Some timed_out) as Hstay.
  { intros acts. by apply ended_arun. }
  split_and!; [done | done | | |].
  - intros acts. by rewrite sys_arun, Hsys.
  - intros k kw it i r Hk Hpc <- Hr Hcaught w2.
    split; [|apply (Hstay [Act (Sched k)])].
    subst w2. rewrite sys_act, Hsys. simpl.
    erewrite sched_run by done. simpl.
    apply list_lookup_insert_eq. by eapply lookup_lt_Some.
  - intros k kw it q i r Hk Hpc Hq <- Hr Hcaught w2.
    split_and!; [| |apply (Hstay [Act (Sched k); Act (Sched k)])];
      subst w2; rewrite sys_arun, Hsys; simpl;
      by destruct (take_and_run i0 (sys w) k kw it q i r Hreach Hk Hpc Hq Hr Hcaught)
        as (_ & ? & _ & _ & ? & _).
Qed.

Lemma C9_witness :
  reachable mock0 (sys slow_boom) ∧
  awaits slow_boom !! 0 = Some {| aw_future := 0; aw_state := Blocked 0 |} ∧
  futures (sys slow_boom) !! 0 = Some Pending ∧
  let w1 := act slow_boom (Tick 30000) in
  let timed_out := {| aw_future := 0; aw_state := Returned (Exc TimeoutError) |} in
  awaits w1 !! 0 = Some timed_out ∧
  sys w1 = sys slow_boom ∧
  (∀ acts, sys (arun w1 acts) = run (sys slow_boom) (events acts) ∧
           awaits (arun w1 acts) !! 0 = Some timed_out) ∧
  let w2 := act w1 (Act (Sched 0)) in
  futures (sys w2) !! 0 = Some (Rejected (ValueError "boom")) ∧
  awaits w2 !! 0 = Some timed_out.
Proof.
  assert (reachable mock0 (sys slow_boom)) as Hr.
  { change (sys slow_boom) with taken_boom. apply reachable_run. constructor. }
  split; [exact Hr|]. split; [reflexivity|]. split; [reflexivity|].
  pose proof (C9_caller_timeout_leaves_the_worker_alone mock0 slow_boom 0 0 0%N 30000%N
                Hr eq_refl eq_refl) as H.
  destruct H as (H1 & H2 & H3 & H4 & _); [by vm_compute|].
  split; [exact H1|]. split; [exact H2|]. split; [exact H3|].
  exact (H4 0 _ _ _ (Exc (ValueError "boom")) eq_refl eq_refl eq_refl eq_refl eq_refl).
Defined.

(** C10, as the code has it: [execute] puts the tuple of [func], all of
    [args] and all of [kwargs] with a new future at the end of the queue
    (no argument is taken as a deadline) and hands [future.result] with the
    constant 30 to the default executor.  The 30 seconds run from the
    moment a thread of the pool enters the call, not from the await: a call
    that waits for a thread is not ended by time, with every thread of the
    pool inside a call none is taken, and a free thread enters the oldest
    waiting call at the time it is then.  A call entered at [t0] whose
    future stays pending is blocked before [t0 + 30 s] and ends in
    [TimeoutError] at [t0 + 30 s].  The time-out changes nothing of the
    service: the item is neither cancelled nor taken off the queue. *)
Theorem C10_execute_awaits_30s_from_the_executor_thread {IB} `{!IBApi IB}
    (w : @World IB) :
  (∀ func args kwargs,
     let f := length (futures (sys w)) in
     let w1 := act w (Act (Submit func args kwargs)) in
     _task_queue (svc (sys w1)) =
       _task_queue (svc (sys w)) ++
         [{| wi_func := func; wi_args := args; wi_kwargs := kwargs; wi_future := f |}] ∧
     futures (sys w1) = futures (sys w) ++ [Pending] ∧
     clock w1 = clock w ∧
     awaits w1 !! length (awaits w) = Some {| aw_future := f; aw_state := Waiting |}) ∧
  (∀ a f d,
     awaits w !! a = Some {| aw_future := f; aw_state := Waiting |} →
     awaits (act w (Tick d)) !! a = Some {| aw_future := f; aw_state := Waiting |}) ∧
  (max_workers w ≤ busy (awaits w) → act w Take = w) ∧
  (∀ a f,
     awaits w !! a = Some {| aw_future := f; aw_state := Waiting |} →
     (∀ b y, b < a → awaits w !! b = Some y → aw_state y ≠ Waiting) →
     futures (sys w) !! f = Some Pending →
     busy (awaits w) < max_workers w →
     awaits (act w Take) !! a
       = Some {| aw_future := f; aw_state := Blocked (clock w) |}) ∧
  (∀ a f t0 d,
     awaits w !! a = Some {| aw_future := f; aw_state := Blocked t0 |} →
     futures (sys w) !! f = Some Pending → (clock w ≤ t0 + 30000)%N →
     let w1 := act w (Tick d) in
     sys w1 = sys w ∧ (clock w ≤ clock w1 ≤ t0 + 30000)%N ∧
     (clock w1 ≤ clock w + d)%N ∧
     awaits w1 !! a =
       Some {| aw_future := f;
               aw_state := if (clock w1 <? t0 + 30000)%N then Blocked t0
                           else Returned (Exc TimeoutError) |}).
Proof.
  split_and!.
  - apply act_submit.
  - intros a f d. apply tick_waiting.
  - apply act_take_full.
  - intros a f. apply act_take.
  - intros a f t0 d. apply tick_blocked.
Qed.

Lemma C10_witness :
  let w := act saturated (Tick 12000) in
  let w1 := act w (Tick 35000) in
  act w Take = w ∧
  awaits w !! 8 = Some {| aw_future := 8; aw_state := Waiting |} ∧
  awaits w1 !! 8 = Some {| aw_future := 8; aw_state := Waiting |} ∧
  awaits w !! 0 = Some {| aw_future := 0; aw_state := Blocked 0 |} ∧
  clock w = 12000%N ∧ clock w1 = 30000%N ∧ sys w1 = sys w ∧
  awaits w1 !! 0 = Some {| aw_future := 0; aw_state := Returned (Exc TimeoutError) |}.
Proof.
  pose proof (C10_execute_awaits_30s_from_the_executor_thread
                (act saturated (Tick 12000))) as (_ & H2 & H3 & _ & H5).
  specialize (H2 8 8 35000%N eq_refl).
  specialize (H3 ltac:(vm_compute; lia)).
  destruct (H5 0 0 0%N 35000%N eq_refl eq_refl ltac:(by vm_compute)) as (E1 & _ & _ & E2).
  split; [exact H3|]. split; [reflexivity|]. split; [exact H2|].
  split; [reflexivity|]. split; [reflexivity|]. split; [reflexivity|].
  split; [exact E1|]. exact E2.
Defined.

(** C10 as stated (an await whose future is not settled within 30 seconds
    raises a timeout error) fails when the pool is busy.  Nine calls of
    [execute] at time 0 with no worker started and a pool of eight threads:
    eight calls are entered, the ninth cannot be (not at 0, not at 29.999 s);
    at 30 s the eight time out and the ninth is entered; at 35 s its
    future is pending and its await has not raised. *)
Lemma C10_counterexample :
  max_workers nine_awaits = 8 ∧ clock nine_awaits = 0%N ∧
  awaits nine_awaits = (fun f => {| aw_future := f; aw_state := Waiting |}) <$> seq 0 9 ∧
  busy (awaits saturated) = 8 ∧ act saturated Take = saturated ∧
  act (act saturated (Tick 29999)) Take = act saturated (Tick 29999) ∧
  let w35 := arun saturated [Tick 30000; Take; Tick 5000] in
  clock w35 = 35000%N ∧ futures (sys w35) !! 8 = Some Pending ∧
  awaits w35 !! 8 = Some {| aw_future := 8; aw_state := Blocked 30000 |}.
Proof. by vm_compute. Qed.


(** ** Further properties of the service *)

Section More.

Context {IB : Type} `{api : !IBApi IB}.
Implicit Types (s : @Sys IB) (it : @WorkItem IB) (k : @Worker IB) (w : nat) (f : FutId).

Lemma futures_length_sched s w : length (futures (sched w s)) = length (futures s).
Proof. sched_paths; by rewrite ?length_insert. Qed.

Lemma settled_sched s w f st :
  futures s !! f = Some st → st ≠ Pending → futures (sched w s) !! f = Some st.
Proof.
  intros Hf Hst. sched_paths; try done.
  all: destruct (decide (f = wi_future it)) as [->|Hne]; [congruence|].
  all: by rewrite list_lookup_insert_ne.
Qed.

Lemma settled_step s ev f st :
  futures s !! f = Some st → st ≠ Pending → futures (step s ev) !! f = Some st.
Proof.
  intros Hf Hst. destruct ev as [host port cid|func args kwargs|w].
  - done.
  - simpl. by apply lookup_app_l_Some.
  - by apply settled_sched.
Qed.

(** X1: a future is settled once.  Whatever the callers and the threads do
    afterwards, a future that holds a value or an exception holds it for
    good: [set_result] and [set_exception] change pending futures only. *)
Theorem X1_settled_future_keeps_its_outcome s f st evs :
  futures s !! f = Some st → st ≠ Pending → futures (run s evs) !! f = Some st.
Proof.
  revert s. induction evs as [|ev evs IH]; intros s Hf Hst; [done|].
  simpl. apply IH; [|done]. by apply settled_step.
Qed.

End More.

Lemma X1_witness :
  futures served_unconnected !! 0 = Some (Fulfilled (PyInt 7)) ∧
  futures (run served_unconnected
             [gateway; Sched 1; Submit boom [] []; Sched 0; Sched 0; Sched 1])
    !! 0 = Some (Fulfilled (PyInt 7)).
Proof.
  split; [reflexivity|].
  apply (X1_settled_future_keeps_its_outcome served_unconnected 0 _ _ eq_refl).
  discriminate.
Defined.

(** A step of a thread moves a future from the ones to settle to the ones
    called, or moves none. *)
Lemma executed_owned_sched {IB} `{!IBApi IB} (s : @Sys IB) w :
  executed (sched w s) ++ owned (sched w s) ≡ₚ executed s ++ owned s.
Proof.
  unfold owned, inflight, queued, executed.
  sched_paths; rewrite ?list_alter_alter_eq; try done.
  all: match goal with
       | H : threads _ !! _ = Some ?k |- context [alter ?g _ _] =>
           destruct (inflight_alter _ _ _ g H) as (rest & E1 & E2);
           unfold inflight_of in E1, E2; simpl in E1, E2;
           repeat match goal with H' : w_pc k = _ |- _ => rewrite H' in E1; clear H' end;
           simpl in E1, E2
       end.
  all: repeat match goal with H : _task_queue _ = _ |- _ => rewrite H; clear H end.
  all: rewrite E1, E2, ?omap_app; simpl; rewrite ?app_nil_r.
  all: solve_Permutation.
Qed.

(** X2: no item is lost and none is run twice, with any number of worker
    threads.  In every reachable state each future ever made by [execute]
    is in exactly one place: its operation was called, or a thread has
    taken its item, or the item waits in the queue; and no operation was
    called twice. *)
Theorem X2_every_item_is_in_one_place {IB} `{!IBApi IB} i (s : @Sys IB) :
  reachable i s →
  executed s ++ inflight s ++ queued s ≡ₚ seq 0 (length (futures s)) ∧
  NoDup (executed s ++ inflight s ++ queued s).
Proof.
  intros Hreach.
  assert (executed s ++ inflight s ++ queued s ≡ₚ seq 0 (length (futures s))) as Hperm.
  { induction Hreach as [|s ev Hs IH]; [done|].
    destruct ev as [host port cid|func args kwargs|w].
    - change (step s (Start host port cid)) with (fst (start_spawn host port cid s)).
      rewrite inflight_start. exact IH.
    - unfold queued in *. simpl. rewrite fmap_app, length_app. simpl.
      rewrite Nat.add_1_r, seq_S, <- IH. simpl. by rewrite !app_assoc.
    - simpl. rewrite futures_length_sched, <- IH.
      apply (executed_owned_sched s w). }
  split; [done|]. rewrite Hperm. apply NoDup_seq.
Qed.

Lemma X2_witness :
  reachable mock0 two_workers ∧
  executed two_workers = [1] ∧ inflight two_workers = [0] ∧
  queued two_workers = [2] ∧
  (executed two_workers ++ inflight two_workers ++ queued two_workers
     ≡ₚ seq 0 (length (futures two_workers)) ∧
   NoDup (executed two_workers ++ inflight two_workers ++ queued two_workers)).
Proof.
  assert (reachable mock0 two_workers) as Hr by (apply reachable_run; constructor).
  split; [exact Hr|].
  split; [reflexivity|]. split; [reflexivity|]. split; [reflexivity|].
  exact (X2_every_item_is_in_one_place mock0 two_workers Hr).
Defined.



Lemma orphan_owned {IB} `{!IBApi IB} (s : @Sys IB) f :
  orphan f s ↔ futures s !! f = Some Pending ∧ f ∉ owned s.
Proof. done. Qed.

(** Nothing settles a pending future whose item is gone. *)
Lemma orphan_step {IB} `{!IBApi IB} (s : @Sys IB) f ev :
  orphan f s → orphan f (step s ev).
Proof.
  rewrite !orphan_owned. intros [Hf Hno].
  destruct ev as [host port cid|func args kwargs|w].
  - change (step s (Start host port cid)) with (fst (start_spawn host port cid s)).
    unfold owned in *. rewrite inflight_start. by split.
  - split.
    + simpl. by apply lookup_app_l_Some.
    + unfold owned, queued in *. simpl. rewrite fmap_app, app_assoc. simpl.
      change (concat (inflight_of <$> threads s)) with (inflight s).
      intros [Hin| ->%list_elem_of_singleton]%elem_of_app; [done|].
      apply lookup_lt_Some in Hf. lia.
  - simpl. destruct (sched_owned s w) as [[E ->]|(f' & E & Hfu)].
    + split; [done|]. by rewrite E.
    + assert (f ≠ f') as Hne.
      { intros ->. apply Hno. rewrite E. by left. }
      split.
      * destruct Hfu as [->|[st ->]]; [done|]. by rewrite list_lookup_insert_ne.
      * intros Hin. apply Hno. rewrite E. by right.
Qed.

Lemma orphan_run {IB} `{!IBApi IB} (s : @Sys IB) f evs :
  orphan f s → orphan f (run s evs).
Proof.
  revert s. induction evs as [|ev evs IH]; intros s Ho; [done|].
  simpl. by apply IH, orphan_step.
Qed.

(** X4: an operation that raises [SystemExit] or [KeyboardInterrupt]
    (exceptions outside [Exception]) is not caught by the worker: the
    thread ends with it and the item's future is left pending.  Nothing
    settles that future afterwards, whatever is submitted, started or run,
    so the caller gets no result: an await of that future that waits for a
    thread of the pool, is inside [future.result], or has timed out, is in
    one of these three states for good. *)
Theorem X4_fatal_operation_ends_worker_and_strands_caller {IB} `{!IBApi IB}
    i0 (s : @Sys IB) w k it i e :
  reachable i0 s → threads s !! w = Some k → w_pc k = Executing it →
  wi_func it (wi_args it) (wi_kwargs it) (ib (svc s)) = (i, Exc e) →
  is_Exception e = false →
  let s1 := sched w s in
  pc_of s1 w = Some (Crashed e) ∧
  (∀ evs, futures (run s1 evs) !! wi_future it = Some Pending) ∧
  ∀ (v : @World IB) a st acts,
    sys v = s1 →
    awaits v !! a = Some {| aw_future := wi_future it; aw_state := st |} →
    unserved st = true →
    ∃ st', awaits (arun v acts) !! a
             = Some {| aw_future := wi_future it; aw_state := st' |} ∧
           unserved st' = true.
Proof.
  intros Hreach Hk Hpc Hf He s1.
  pose proof (executing_pending _ _ _ _ _ Hreach Hk Hpc) as Hp.
  apply wf_reachable in Hreach as (Hnd & _ & _).
  assert (s1 = set_threads (alter (with_pc (Crashed e)) w)
                 (add_log (ObsFunc w (wi_future it)) (set_svc (with_ib i) s)))
    as Hs1 by (by eapply sched_run_fatal).
  assert (orphan (wi_future it) s1) as Horph.
  { rewrite Hs1. split; [done|]. simpl.
    destruct (inflight_alter _ _ _ (with_pc (Crashed e)) Hk) as (rest & E1 & E2).
    unfold owned, inflight in Hnd. rewrite E1 in Hnd. rewrite E2.
    unfold inflight_of in *. rewrite Hpc in Hnd. simpl in *.
    by apply NoDup_cons in Hnd as [? _]. }
  assert (∀ evs, futures (run s1 evs) !! wi_future it = Some Pending) as Hpend.
  { intros evs. by destruct (orphan_run s1 _ evs Horph). }
  split_and!.
  - rewrite Hs1. by erewrite pc_of_alter.
  - done.
  - intros v a st acts Hv Ha Hst.
    apply (unserved_arun v acts a _ Ha Hst). simpl. by rewrite Hv.
Qed.

Lemma X4_witness :
  reachable mock0 taken_quit ∧
  let s1 := sched 0 taken_quit in
  let v := arun (world s1 8) [Act (Submit echo [PyInt 7] []); Take; Tick 40000] in
  pc_of s1 0 = Some (Crashed SystemExit) ∧
  (∀ evs, futures (run s1 evs) !! 0 = Some Pending) ∧
  futures (sys v) !! 1 = Some Pending ∧
  awaits v !! 0 = Some {| aw_future := 1; aw_state := Returned (Exc TimeoutError) |}.
Proof.
  assert (reachable mock0 taken_quit) as Hr by (apply reachable_run; constructor).
  split; [exact Hr|].
  destruct (X4_fatal_operation_ends_worker_and_strands_caller mock0 taken_quit 0 _ _ _ _
              Hr eq_refl eq_refl eq_refl eq_refl) as (H1 & H2 & _).
  split; [exact H1|]. split; [exact H2|]. split; reflexivity.
Defined.

Lemma no_worker_sched {IB} `{!IBApi IB} (s : @Sys IB) w :
  no_worker s → sched w s = s.
Proof.
  intros Hno. destruct (threads s !! w) as [k|] eqn:Hk.
  - eapply sched_dead; [done|]. by eapply (Forall_lookup_1 _ _ _ _ Hno).
  - by apply sched_absent.
Qed.

(** X5: without a running worker nothing is served.  Before the first
    [start], and once every worker thread has ended, [execute] still
    accepts operations: each call adds a pending future and an item to the
    queue, but no operation is called, the connection is not touched and
    the futures stay pending; only a call of [start] changes that. *)
Theorem X5_nothing_is_served_without_a_worker {IB} `{!IBApi IB}
    (s : @Sys IB) evs :
  no_worker s → starts evs = 0 →
  futures (run s evs) = futures s ++ replicate (submits evs) Pending ∧
  length (_task_queue (svc (run s evs)))
    = length (_task_queue (svc s)) + submits evs ∧
  log (run s evs) = log s ∧
  ib (svc (run s evs)) = ib (svc s).
Proof.
  intros Hno Hst.
  revert s Hno Hst. induction evs as [|ev evs IH]; intros s Hno Hst.
  - unfold submits. simpl. rewrite app_nil_r. split_and!; [done|lia|done|done].
  - change (run s (ev :: evs)) with (run (step s ev) evs).
    destruct ev as [host port cid|func args kwargs|w].
    + unfold starts in Hst. simpl in Hst. lia.
    + destruct (IH (step s (Submit func args kwargs))) as (H1 & H2 & H3 & H4);
        [done | done |].
      rewrite H1, H2, H3, H4. unfold submits. simpl.
      rewrite length_app, <- app_assoc. simpl. split_and!; [done|lia|done|done].
    + simpl. rewrite no_worker_sched by done. by apply IH.
Qed.

Lemma X5_witness :
  let evs := [Submit echo [PyInt 1] []; Sched 0; Submit boom [] []; Sched 0] in
  let s := sched 0 link_down in
  no_worker s ∧ starts evs = 0 ∧
  futures (run s evs) = futures s ++ replicate 2 Pending ∧
  length (_task_queue (svc (run s evs))) = length (_task_queue (svc s)) + 2 ∧
  log (run s evs) = log s ∧
  ib (svc (run s evs)) = ib (svc s).
Proof.
  assert (no_worker (sched 0 link_down)) as Hno.
  { repeat constructor. }
  split; [exact Hno|]. split; [reflexivity|].
  exact (X5_nothing_is_served_without_a_worker (sched 0 link_down)
           [Submit echo [PyInt 1] []; Sched 0; Submit boom [] []; Sched 0]
           Hno eq_refl).
Defined.

(** With [_running] set, the [while] test lets the thread go on. *)
Lemma pc_sched_not_exited {IB} `{!IBApi IB} (s : @Sys IB) w k :
  threads s !! w = Some k → _running (svc s) = true → w_pc k ≠ Exited →
  ∃ pc, pc_of (sched w s) w = Some pc ∧ pc ≠ Exited.
Proof.
  intros Hk Hrun Hpc. unfold pc_of.
  sched_paths; rewrite ?list_lookup_alter_eq;
    repeat match goal with H : threads _ !! _ = Some _ |- _ => rewrite H end;
    simpl; try (eexists; split; [reflexivity|done]).
Qed.

Lemma never_exited {IB} `{!IBApi IB} i (s : @Sys IB) w k :
  reachable i s → threads s !! w = Some k → w_pc k ≠ Exited.
Proof.
  intros Hreach. revert w k. induction Hreach as [|s ev Hs IH]; intros w k Hk; [done|].
  destruct ev as [host port cid|func args kwargs|w'].
  - simpl in Hk. apply lookup_app_Some in Hk as [Hk|[_ Hk]]; [by eapply IH|].
    destruct (w - length (threads s)) as [|n]; simplify_eq/=. done.
  - by eapply IH.
  - simpl in Hk. destruct (decide (w' = w)) as [->|Hne].
    + destruct (threads s !! w) as [k0|] eqn:Hk0.
      * destruct (pc_sched_not_exited s w k0 Hk0) as (pc & Hpc & Hne).
        { by eapply running_reachable. }
        { by eapply IH. }
        unfold pc_of in Hpc. rewrite Hk in Hpc. by simplify_eq/=.
      * rewrite sched_absent in Hk by done. congruence.
    + rewrite threads_sched_ne in Hk by done. by eapply IH.
Qed.

(** X6: the worker cannot be stopped and the flags are never cleared.
    Nothing in the class sets [_running] or [_connected] back to [False]:
    once set they stay set whatever happens, so no worker thread ever
    leaves its loop through the [while self._running] test; a thread ends
    only by an exception that leaves [_worker]. *)
Theorem X6_flags_are_never_cleared_and_the_loop_never_exits {IB} `{!IBApi IB}
    i (s : @Sys IB) :
  reachable i s →
  (∀ w, pc_of s w ≠ Some Exited) ∧
  (threads s ≠ [] → _running (svc s) = true) ∧
  ∀ evs,
    (_running (svc s) = true → _running (svc (run s evs)) = true) ∧
    (_connected (svc s) = true → _connected (svc (run s evs)) = true).
Proof.
  intros Hreach. split_and!.
  - intros w Hw. unfold pc_of in Hw. apply fmap_Some in Hw as (k & Hk & Hpc).
    by eapply never_exited.
  - by apply wf_reachable in Hreach as (_ & _ & ?).
  - apply flags_run.
Qed.

Lemma X6_witness :
  reachable mock0 link_down ∧
  (∀ w, pc_of link_down w ≠ Some Exited) ∧
  (threads link_down ≠ [] → _running (svc link_down) = true) ∧
  ∀ evs,
    (_running (svc link_down) = true → _running (svc (run link_down evs)) = true) ∧
    (_connected (svc link_down) = true →
       _connected (svc (run link_down evs)) = true).
Proof.
  assert (reachable mock0 link_down) as Hr by (apply reachable_run; constructor).
  split; [exact Hr|].
  exact (X6_flags_are_never_cleared_and_the_loop_never_exits mock0 link_down Hr).
Defined.

Lemma pumps_sched {IB} `{!IBApi IB} (s : @Sys IB) w :
  pumps (sched w s) = pumps s ∨
  (_connected (svc s) = true ∧ pumps (sched w s) = pumps s ++ [(w, 10%N)]).
Proof.
  unfold pumps. sched_paths; rewrite ?omap_app; simpl; rewrite ?app_nil_r; auto.
Qed.

(** X7: the pump runs only once the service is marked connected.  In
    every reachable state, if [ib.sleep] was ever called by the loop then
    [_connected] is set; and every such call is the 10 ms one, made by a
    worker thread that exists. *)
Theorem X7_pump_only_after_a_successful_handshake {IB} `{!IBApi IB}
    i (s : @Sys IB) :
  reachable i s →
  (pumps s ≠ [] → _connected (svc s) = true) ∧
  (∀ w ms, (w, ms) ∈ pumps s → ms = 10%N ∧ w < length (threads s)).
Proof.
  induction 1 as [|s ev Hs [IH1 IH2]]; [split; [done|by intros ?? ?%elem_of_nil]|].
  destruct ev as [host port cid|func args kwargs|w].
  - split; [exact IH1|]. intros w ms Hin. destruct (IH2 w ms Hin) as [? ?].
    split; [done|]. simpl. rewrite length_app. lia.
  - split; [exact IH1|exact IH2].
  - simpl. destruct (pumps_sched s w) as [E|[Hc E]].
    + rewrite E, threads_length_sched. split; [|exact IH2].
      intros Hne. apply connected_sched. by apply IH1.
    + rewrite E, threads_length_sched. split.
      * intros _. by apply connected_sched.
      * intros w' ms [Hin|Hin%list_elem_of_singleton]%elem_of_app; [by apply IH2|].
        injection Hin as -> ->. split; [done|].
        destruct (threads s !! w) as [k|] eqn:Hk; [by eapply lookup_lt_Some|].
        rewrite sched_absent in E by done.
        apply (f_equal length) in E. rewrite length_app in E. simpl in E. lia.
Qed.

Lemma X7_witness :
  reachable mock0 (run idle [Sched 0; Sched 0]) ∧
  pumps (run idle [Sched 0; Sched 0]) = [(0, 10%N); (0, 10%N)] ∧
  (pumps (run idle [Sched 0; Sched 0]) ≠ [] →
     _connected (svc (run idle [Sched 0; Sched 0])) = true) ∧
  (∀ w ms, (w, ms) ∈ pumps (run idle [Sched 0; Sched 0]) →
     ms = 10%N ∧ w < length (threads (run idle [Sched 0; Sched 0]))).
Proof.
  assert (reachable mock0 (run idle [Sched 0; Sched 0])) as Hr.
  { apply reachable_run. unfold idle. apply reachable_run. constructor. }
  split; [exact Hr|]. split; [reflexivity|].
  exact (X7_pump_only_after_a_successful_handshake mock0 _ Hr).
Defined.

(** X8: after a second [start] the connection has two users.  With two
    worker threads in the loop and two items waiting, each thread takes
    one: two items are taken at once, and the thread that took the later
    item can call its operation while the earlier one has not been called:
    the order of submission is not the order of the calls any more. *)
Theorem X8_two_workers_take_two_items_at_once {IB} `{!IBApi IB}
    i0 (s : @Sys IB) w1 w2 k1 k2 a b q i r :
  reachable i0 s → w1 ≠ w2 →
  threads s !! w1 = Some k1 → threads s !! w2 = Some k2 →
  w_pc k1 = Looping → w_pc k2 = Looping →
  _task_queue (svc s) = a :: b :: q →
  wi_func b (wi_args b) (wi_kwargs b) (ib (svc s)) = (i, r) → caught r = true →
  let s2 := run s [Sched w1; Sched w2] in
  let s3 := sched w2 s2 in
  pc_of s2 w1 = Some (Executing a) ∧ pc_of s2 w2 = Some (Executing b) ∧
  inflight s2 ≡ₚ wi_future a :: wi_future b :: inflight s ∧
  executed s3 = executed s ++ [wi_future b] ∧
  futures s3 !! wi_future b = Some (settle r) ∧
  pc_of s3 w1 = Some (Executing a) ∧
  futures s3 !! wi_future a = Some Pending.
Proof.
  intros Hreach Hne Hk1 Hk2 Hpc1 Hpc2 Hq Hf Hc. unfold run. cbn [foldl step].
  pose proof (running_reachable _ _ _ _ Hreach Hk1) as Hrun.
  pose proof (wf_reachable _ _ Hreach) as (Hnd & Hp & _).
  assert (futures s !! wi_future a = Some Pending) as Hpa.
  { apply Hp, elem_of_app. right. unfold queued. rewrite Hq. by left. }
  assert (futures s !! wi_future b = Some Pending) as Hpb.
  { apply Hp, elem_of_app. right. unfold queued. rewrite Hq. right. by left. }
  assert (wi_future a ≠ wi_future b) as Hab.
  { unfold owned, queued in Hnd. rewrite Hq in Hnd.
    apply NoDup_app in Hnd as (_ & _ & Hnd). simpl in Hnd.
    apply NoDup_cons in Hnd as [Hnot _]. intros E. apply Hnot. rewrite E. by left. }
  rewrite (sched_get s w1 k1 a (b :: q)) by done.
  set (s1 := set_threads _ _).
  assert (threads s1 !! w2 = Some k2) as Hk2'.
  { simpl. by rewrite list_lookup_alter_ne. }
  rewrite (sched_get s1 w2 k2 b q) by done.
  set (s2 := set_threads _ _).
  assert (threads s2 !! w2 = Some (with_pc (Executing b) k2)) as Hk2''.
  { simpl. by rewrite list_lookup_alter_eq, list_lookup_alter_ne, Hk2. }
  assert (threads s2 !! w1 = Some (with_pc (Executing a) k1)) as Hk1''.
  { simpl. by rewrite list_lookup_alter_ne, list_lookup_alter_eq, Hk1. }
  rewrite (sched_run s2 w2 _ b i r Hk2'' eq_refl Hpb Hf Hc).
  split_and!.
  - unfold pc_of. by rewrite Hk1''.
  - unfold pc_of. by rewrite Hk2''.
  - unfold inflight. simpl.
    assert (alter (with_pc (Executing a)) w1 (threads s) !! w2 = Some k2) as Hk2a.
    { by rewrite list_lookup_alter_ne. }
    destruct (inflight_alter _ _ _ (with_pc (Executing b)) Hk2a) as (r2 & E1 & E2).
    destruct (inflight_alter _ _ _ (with_pc (Executing a)) Hk1) as (r1 & E3 & E4).
    rewrite E2. rewrite E4 in E1. rewrite E3.
    unfold inflight_of in *. rewrite Hpc1, Hpc2 in *. simpl in *.
    rewrite <- E1. solve_Permutation.
  - unfold executed. simpl. by rewrite omap_app.
  - simpl. apply list_lookup_insert_eq. by eapply lookup_lt_Some.
  - unfold pc_of. simpl. by rewrite list_lookup_alter_ne, list_lookup_alter_ne,
      list_lookup_alter_eq, Hk1.
  - simpl. by rewrite list_lookup_insert_ne.
Qed.

Lemma X8_witness :
  reachable mock0 two_idle_workers ∧
  let s2 := run two_idle_workers [Sched 0; Sched 1] in
  let s3 := sched 1 s2 in
  pc_of s2 0 = Some (Executing (echo_item 1 0)) ∧
  pc_of s2 1 = Some (Executing (echo_item 2 1)) ∧
  inflight s2 ≡ₚ 0 :: 1 :: inflight two_idle_workers ∧
  executed s3 = executed two_idle_workers ++ [1] ∧
  futures s3 !! 1 = Some (Fulfilled (PyInt 2)) ∧
  pc_of s3 0 = Some (Executing (echo_item 1 0)) ∧
  futures s3 !! 0 = Some Pending.
Proof.
  assert (reachable mock0 two_idle_workers) as Hr by (apply reachable_run; constructor).
  split; [exact Hr|].
  assert (0 ≠ 1) as Hne by lia.
  exact (X8_two_workers_take_two_items_at_once mock0 two_idle_workers 0 1
           gateway_worker gateway_worker (echo_item 1 0) (echo_item 2 1) []
           {| up := true; ticks := 0 |} (Ok (PyInt 2))
           Hr Hne eq_refl eq_refl eq_refl eq_refl eq_refl eq_refl eq_refl).
Defined.

(** ** Properties of the browser client *)

Import WebSocketClient.

Lemma readyState_connect c :
  readyState (connect false c) = Some OPEN ∨
  readyState (connect false c) = Some CONNECTING.
Proof.
  unfold connect. destruct (readyState c) as [[]|] eqn:Hr; auto.
  all: right; unfold readyState; simpl; by rewrite lookup_app_r, Nat.sub_diag.
Qed.

Lemma connect_throws c : connect true c = c.
Proof. unfold connect. by destruct (readyState c) as [[]|]. Qed.

(** X9: [connect] is idempotent.  Called while the current socket is open
    or opening it does nothing.  When the constructor of the socket throws,
    the client is as it was: no socket is made, [ws] and
    [isIntentionallyClosed] keep their values.  When the constructor
    returns, the current socket is open or opening afterwards.  So a second
    call in a row changes nothing, and two calls make at most one socket
    whatever the constructor does in each. *)
Theorem X9_ws_connect_is_idempotent c :
  (∀ throws, connect throws (connect throws c) = connect throws c) ∧
  (∀ throws, readyState c = Some OPEN ∨ readyState c = Some CONNECTING →
     connect throws c = c) ∧
  connect true c = c ∧
  (readyState (connect false c) = Some OPEN ∨
   readyState (connect false c) = Some CONNECTING) ∧
  (∀ throws throws',
     length (sockets (connect throws' (connect throws c))) ≤ S (length (sockets c))) ∧
  (∀ throws', connect throws' (connect false c) = connect false c).
Proof.
  assert (∀ throws', connect throws' (connect false c) = connect false c) as Hsecond.
  { intros throws'. destruct (readyState_connect c) as [H|H];
      unfold connect at 1; by rewrite H. }
  assert (∀ throws, length (sockets (connect throws c)) ≤ S (length (sockets c)))
    as Hone.
  { intros throws. unfold connect.
    destruct (readyState c) as [[]|], throws; simpl; rewrite ?length_app; simpl; lia. }
  split_and!.
  - intros [|]; [by rewrite !connect_throws|apply Hsecond].
  - intros throws [H|H]; unfold connect; by rewrite H.
  - apply connect_throws.
  - apply readyState_connect.
  - intros [|] throws'; [rewrite connect_throws; apply Hone|].
    rewrite Hsecond. apply Hone.
  - done.
Qed.

Lemma failed_attempt_spec c :
  isIntentionallyClosed c = false →
  isIntentionallyClosed (failed_attempt c) = false ∧
  isConnected (failed_attempt c) = false ∧
  timers (failed_attempt c) = timers (attemptReconnect c) ∧
  reconnectAttempts (failed_attempt c) = reconnectAttempts (attemptReconnect c).
Proof.
  intros Hflag. unfold failed_attempt.
  assert (isIntentionallyClosed (connect false c) = false ∧
          timers (connect false c) = timers c ∧
          reconnectAttempts (connect false c) = reconnectAttempts c) as (H1 & H2 & H3).
  { unfold connect. by destruct (readyState c) as [[]|]. }
  destruct (readyState_connect c) as [Hr|Hr];
    unfold readyState in Hr; destruct (ws (connect false c)) as [j|] eqn:Hws; try done.
  all: simpl in Hr; apply lookup_lt_Some in Hr.
  all: unfold onclose; rewrite H1.
  all: unfold attemptReconnect; simpl; rewrite H2, H3.
  all: unfold isConnected, readyState.
  all: destruct (decide (maxReconnectAttempts ≤ reconnectAttempts c)); simpl;
         rewrite Hws; simpl; rewrite list_lookup_insert_eq by done; done.
Qed.

Lemma backoff_snoc from n :
  backoff from (S n) = backoff from n ++ [(1000 * 2 ^ N.of_nat (from + n))%N].
Proof. unfold backoff. by rewrite seq_S, fmap_app. Qed.

(** X10: the reconnect back-off.  While the attempts keep failing, the
    client waits 1 s, 2 s, 4 s, 8 s and 16 s before the next one and gives
    up after [maxReconnectAttempts] = 5: from [n] attempts counted, [k]
    failures in a row set the timers of the attempts [n], ..., up to the
    fifth, and none after it.  The client is not connected then and sets no
    further timer by itself. *)
Theorem X10_ws_reconnect_backoff c k :
  isIntentionallyClosed c = false →
  let n := reconnectAttempts c in
  let c1 := Nat.iter k failed_attempt c in
  timers c1 = timers c ++ backoff n (k `min` (5 - n)) ∧
  reconnectAttempts c1 = n + k `min` (5 - n) ∧
  (0 < k → isConnected c1 = false) ∧
  (n = 0 → 5 ≤ k →
     timers c1 = timers c ++ [1000; 2000; 4000; 8000; 16000]%N ∧
     timers (failed_attempt c1) = timers c1).
Proof.
  intros Hflag n c1.
  assert (isIntentionallyClosed c1 = false ∧
          timers c1 = timers c ++ backoff n (k `min` (5 - n)) ∧
          reconnectAttempts c1 = n + k `min` (5 - n) ∧
          (0 < k → isConnected c1 = false)) as (Hf & Ht & Ha & Hc).
  { subst c1. induction k as [|k (IHf & IHt & IHa & IHc)].
    - simpl. unfold backoff. simpl. rewrite app_nil_r. split_and!; [done|done|lia|lia].
    - rewrite Nat.iter_succ.
      destruct (failed_attempt_spec _ IHf) as (H1 & H2 & H3 & H4).
      rewrite H3, H4. unfold attemptReconnect, maxReconnectAttempts.
      rewrite IHa.
      destruct (decide (5 ≤ n + k `min` (5 - n))) as [Hge|Hlt];
        cbn [timers reconnectAttempts]; rewrite ?IHa, ?IHt.
      + replace (S k `min` (5 - n)) with (k `min` (5 - n)) by lia. done.
      + replace (S k `min` (5 - n)) with (S (k `min` (5 - n))) by lia.
        rewrite backoff_snoc, app_assoc, Nat.sub_succ, Nat.sub_0_r.
        split_and!; [done|done|lia|done]. }
  split_and!; [done..|].
  intros Hn Hk. rewrite Hn in *.
  replace (k `min` (5 - 0)) with 5 in * by lia. split; [by rewrite Ht|].
  destruct (failed_attempt_spec _ Hf) as (_ & _ & H3 & _).
  rewrite H3. unfold attemptReconnect, maxReconnectAttempts. rewrite Ha. done.
Qed.

Lemma X10_witness :
  let c1 := Nat.iter 7 failed_attempt new in
  timers c1 = timers new ++ backoff 0 (7 `min` (5 - 0)) ∧
  reconnectAttempts c1 = 0 + 7 `min` (5 - 0) ∧
  (0 < 7 → isConnected c1 = false) ∧
  (0 = 0 → 5 ≤ 7 →
     timers c1 = timers new ++ [1000; 2000; 4000; 8000; 16000]%N ∧
     timers (failed_attempt c1) = timers c1).
Proof. exact (X10_ws_reconnect_backoff new 7 eq_refl). Defined.

Lemma isConnected_connect throws c :
  isConnected c = false → isConnected (connect throws c) = false.
Proof.
  destruct throws; [by rewrite connect_throws|].
  unfold isConnected, connect. destruct (readyState c) as [[]|] eqn:Hr; try done.
  all: intros _; rewrite ?Hr; try done.
  all: unfold readyState; simpl; by rewrite lookup_app_r, Nat.sub_diag.
Qed.

(** X11: a subscription asked for before the socket is open is lost.
    [subscribe] and [unsubscribe] send only on an open socket; called
    right after [connect], while the socket is still opening (or when the
    constructor threw and there is none), they send nothing and keep
    nothing: the request is not sent either when the socket opens later. *)
Theorem X11_ws_subscribe_before_open_is_lost throws c ch :
  isConnected c = false →
  subscribe ch (connect throws c) = connect throws c ∧
  unsubscribe ch (connect throws c) = connect throws c ∧
  ∀ j, sent (onopen j (subscribe ch (connect throws c))) = sent c.
Proof.
  intros Hc. pose proof (isConnected_connect throws c Hc) as Hc1.
  assert (∀ r, send r (connect throws c) = connect throws c) as Hsend.
  { intros r. unfold send. rewrite Hc1. by destruct (ws (connect throws c)). }
  unfold subscribe, unsubscribe. rewrite !Hsend. split_and!; [done|done|].
  intros j. simpl. unfold connect. by destruct (readyState c) as [[]|], throws.
Qed.

Lemma X11_witness :
  isConnected new = false ∧
  subscribe "spy" (connect false new) = connect false new ∧
  unsubscribe "spy" (connect false new) = connect false new ∧
  (∀ j, sent (onopen j (subscribe "spy" (connect false new))) = sent new) ∧
  sent (subscribe "spy" (onopen 0 (connect false new)))
    = [(0, {| action := "subscribe"; channel := "spy" |})].
Proof.
  split; [reflexivity|].
  destruct (X11_ws_subscribe_before_open_is_lost false new "spy" eq_refl)
    as (H1 & H2 & H3).
  split; [exact H1|]. split; [exact H2|]. split; [exact H3|]. reflexivity.
Defined.

Lemma registered_on type type' cb c :
  registered type' (on type cb c)
  = if decide (type = type') then Set_add cb (registered type c) else registered type' c.
Proof.
  unfold registered, on. simpl. destruct (decide (type = type')) as [->|Hne].
  - by rewrite lookup_insert_eq.
  - by rewrite lookup_insert_ne.
Qed.

Lemma Set_add_elem cb l : cb ∈ Set_add cb l.
Proof.
  unfold Set_add. destruct (decide (cb ∈ l)); [done|].
  apply elem_of_app. right. by left.
Qed.

Lemma Set_delete_absent cb l : cb ∉ l → Set_delete cb l = l.
Proof.
  unfold Set_delete. induction l as [|x l IH]; intros Hno; [done|].
  apply not_elem_of_cons in Hno as [Hne Hno].
  rewrite filter_cons_True by done. by rewrite IH.
Qed.

Lemma Set_delete_add cb l : cb ∉ l → Set_delete cb (Set_add cb l) = l.
Proof.
  intros Hno. unfold Set_add. rewrite decide_False by done.
  unfold Set_delete. rewrite filter_app, filter_cons_False, filter_nil, app_nil_r
    by (by intros ?).
  by apply Set_delete_absent.
Qed.

Lemma Set_delete_gone cb l : cb ∉ Set_delete cb l.
Proof. unfold Set_delete. intros [Hne _]%list_elem_of_filter. by apply Hne. Qed.

(** X13: the callbacks of a type are a set.  [on] registers a callback
    for one type and leaves the other types alone; registering it again
    changes nothing, so it is called once for a message however often it
    was registered.  [off] takes it out, whatever was registered; [off]
    after the [on] that added it gives back the callbacks there were. *)
Theorem X13_ws_on_and_off cb type c :
  cb ∈ registered type (on type cb c) ∧
  on type cb (on type cb c) = on type cb c ∧
  (∀ type', type ≠ type' → registered type' (on type cb c) = registered type' c) ∧
  (cb ∉ registered type (off type cb c)) ∧
  (cb ∉ registered type c →
     registered type (off type cb (on type cb c)) = registered type c) ∧
  (NoDup (registered type c) → NoDup (registered type (on type cb c))).
Proof.
  split_and!.
  - rewrite registered_on, decide_True by done. apply Set_add_elem.
  - unfold on at 1. simpl. rewrite lookup_insert_eq. simpl.
    unfold Set_add at 1. rewrite decide_True by apply Set_add_elem.
    unfold on, with_callbacks. simpl. by rewrite insert_insert_eq.
  - intros type' Hne. by rewrite registered_on, decide_False.
  - unfold registered, off. destruct (callbacks c !! type) as [l|] eqn:Hl; simpl.
    + rewrite lookup_insert_eq. simpl. apply Set_delete_gone.
    + rewrite Hl. simpl. by intros ?%elem_of_nil.
  - intros Hno. unfold registered, off in *. simpl. rewrite lookup_insert_eq. simpl.
    rewrite lookup_insert_eq. simpl. by apply Set_delete_add.
  - intros Hnd. rewrite registered_on, decide_True by done.
    unfold Set_add. destruct (decide (cb ∈ registered type c)); [done|].
    apply NoDup_app. split_and!; [done| |apply NoDup_singleton].
    intros x Hx ->%list_elem_of_singleton. done.
Qed.

Lemma X13_witness :
  1 ∈ registered "spy_price" (on "spy_price" 1 new) ∧
  on "spy_price" 1 (on "spy_price" 1 new) = on "spy_price" 1 new ∧
  (∀ type', "spy_price" ≠ type' →
     registered type' (on "spy_price" 1 new) = registered type' new) ∧
  (1 ∉ registered "spy_price" (off "spy_price" 1 new)) ∧
  (1 ∉ registered "spy_price" new →
     registered "spy_price" (off "spy_price" 1 (on "spy_price" 1 new))
       = registered "spy_price" new) ∧
  (NoDup (registered "spy_price" new) →
     NoDup (registered "spy_price" (on "spy_price" 1 new))).
Proof. exact (X13_ws_on_and_off 1 "spy_price" new). Defined.

(** The client is down: no current socket, and closing is intended. *)
Lemma down_happen c h :
  ws c = None → isIntentionallyClosed c = true →
  ws (happen c h) = None ∧ isIntentionallyClosed (happen c h) = true ∧
  timers (happen c h) = timers c ∧ sent (happen c h) = sent c.
Proof.
  intros Hws Hflag.
  destruct h as [j|j|ch|ch|type cb|type cb|]; simpl;
    unfold onclose, subscribe, unsubscribe, send, off; rewrite ?Hws, ?Hflag; try done.
  by destruct (callbacks c !! type).
Qed.

(** X14: after [disconnect] the client stays down until [connect] is
    called again.  Whatever the browser does to the sockets and whichever
    other methods are called, the client has no current socket, is not
    connected, sends nothing and sets no timer.  [disconnect] sets no timer
    and clears none: a call of [connect] made afterwards, by the user or by
    a reconnect timer set before, whose constructor returns, makes a new
    socket and clears [isIntentionallyClosed], so that the close of a
    socket, also of an old one, counts and times a reconnect again; a call
    whose constructor throws leaves the client down. *)
Theorem X14_ws_disconnect_stops_reconnecting c :
  let c1 := disconnect c in
  (∀ hs, let c2 := foldl happen c1 hs in
         ws c2 = None ∧ isConnected c2 = false ∧ isIntentionallyClosed c2 = true ∧
         timers c2 = timers c ∧ sent c2 = sent c) ∧
  connect true c1 = c1 ∧
  ws (connect false c1) = Some (length (sockets c)) ∧
  readyState (connect false c1) = Some CONNECTING ∧
  isIntentionallyClosed (connect false c1) = false ∧
  (reconnectAttempts c < maxReconnectAttempts →
   ∀ j, timers (onclose j (connect false c1))
          = timers c ++ [(reconnectDelay * 2 ^ N.of_nat (reconnectAttempts c))%N] ∧
        reconnectAttempts (onclose j (connect false c1)) = S (reconnectAttempts c)).
Proof.
  intros c1.
  assert (ws (connect false c1) = Some (length (sockets c))) as Hws.
  { unfold connect, readyState. simpl. destruct (ws c); simpl; by rewrite ?length_alter. }
  split_and!.
  - intros hs.
    assert (ws (foldl happen c1 hs) = None ∧
            isIntentionallyClosed (foldl happen c1 hs) = true ∧
            timers (foldl happen c1 hs) = timers c1 ∧
            sent (foldl happen c1 hs) = sent c1) as (H1 & H2 & H3 & H4).
    { assert (ws c1 = None) as Hw by done.
      assert (isIntentionallyClosed c1 = true) as Hf by done.
      generalize dependent c1. intros c1 _. revert c1.
      induction hs as [|h hs IH]; intros c1 Hw Hf; [done|]. simpl.
      destruct (down_happen c1 h Hw Hf) as (Hw1 & Hf1 & Ht1 & Hs1).
      destruct (IH _ Hw1 Hf1) as (? & ? & ? & ?). split_and!; congruence. }
    simpl. split_and!; [done| |done|done|done].
    unfold isConnected, readyState. by rewrite H1.
  - apply connect_throws.
  - done.
  - unfold connect, readyState. simpl. by rewrite lookup_app_r, Nat.sub_diag.
  - done.
  - intros Hlt j. unfold onclose, connect, readyState. simpl.
    unfold attemptReconnect. simpl. rewrite decide_False by lia. simpl.
    by rewrite Nat.sub_0_r.
Qed.

Lemma X14_witness :
  let c := onopen 0 (connect false new) in
  let c1 := disconnect c in
  isConnected c = true ∧
  (∀ hs, let c2 := foldl happen c1 hs in
         ws c2 = None ∧ isConnected c2 = false ∧ isIntentionallyClosed c2 = true ∧
         timers c2 = timers c ∧ sent c2 = sent c) ∧
  timers (onclose 0 (connect false c1)) = [1000%N] ∧
  reconnectAttempts (onclose 0 (connect false c1)) = 1.
Proof.
  split; [reflexivity|].
  destruct (X14_ws_disconnect_stops_reconnecting (onopen 0 (connect false new)))
    as (H1 & _ & _ & _ & _ & H6).
  split; [exact H1|].
  exact (H6 ltac:(vm_compute; lia) 0).
Defined.

(** ** Properties of [formatExpiry] *)

(** X15: an expiry code of eight characters gets its two dashes: the
    result has ten characters and, the dashes taken out, is the code again;
    any other string comes back unchanged.  So formatting twice is
    formatting once. *)
Theorem X15_formatExpiry_round_trip (expiry : string) :
  (String.length expiry = 8 →
     String.length (formatExpiry expiry) = 10 ∧
     String.get 4 (formatExpiry expiry) = String.get 0 "-" ∧
     String.get 7 (formatExpiry expiry) = String.get 0 "-" ∧
     strip_dashes (formatExpiry expiry) = expiry) ∧
  (String.length expiry ≠ 8 → formatExpiry expiry = expiry) ∧
  formatExpiry (formatExpiry expiry) = formatExpiry expiry.
Proof.
  assert (String.length expiry = 8 →
            String.length (formatExpiry expiry) = 10 ∧
            String.get 4 (formatExpiry expiry) = String.get 0 "-" ∧
            String.get 7 (formatExpiry expiry) = String.get 0 "-" ∧
            strip_dashes (formatExpiry expiry) = expiry) as H8.
  { intros Hlen. unfold formatExpiry. rewrite decide_True by done.
    do 9 (destruct expiry as [|? expiry]; try discriminate Hlen).
    done. }
  assert (∀ y, String.length y ≠ 8 → formatExpiry y = y) as Hid.
  { intros y Hne. unfold formatExpiry. by rewrite decide_False. }
  split; [exact H8|]. split; [apply Hid|].
  destruct (decide (String.length expiry = 8)) as [Hlen|Hne].
  - destruct (H8 Hlen) as (H10 & _). apply Hid. rewrite H10. lia.
  - rewrite (Hid expiry Hne). by apply Hid.
Qed.

Lemma X15_witness :
  String.length (formatExpiry "20260116") = 10 ∧
  formatExpiry "20260116" = "2026-01-16" ∧
  strip_dashes (formatExpiry "20260116") = "20260116" ∧
  formatExpiry "2026-01-16" = "2026-01-16".
Proof.
  destruct (X15_formatExpiry_round_trip "20260116") as (H8 & _ & _).
  destruct (H8 eq_refl) as (H1 & _ & _ & H4).
  split; [exact H1|]. split; [reflexivity|]. split; [exact H4|]. reflexivity.
Defined.
